(** * PollingExecutor: an interleaving model of
      include/thousandeyes/futures/PollingExecutor.h

    The executor is a class template over two functors (the poll runner and
    the dispatch runner).  Its three entry points ([watch], [stop] and the
    destructor) and the poll loop it submits are modelled as threads of
    control that interleave at the granularity of the source: every
    [std::lock_guard] block is one atomic step, and every call that leaves
    the class (a [wait] on a waitable, a [dispatch] of a waitable, a call of
    one of the two functors) is a step of its own.

    A schedule is a list of labels; [exec] runs a schedule from a state and
    fails when a label is not enabled.  Everything that is not decided by
    the executor (what [wait] answers, whether a [dispatch] called by
    [stop] returns or throws, what a runner does with work that is
    submitted after its [stop]) is carried by the label. *)

From stdpp Require Import base list strings.
From Stdlib Require Import Lia.

(** ** Data *)

(** A [std::unique_ptr<Waitable>] is represented by the identity of the
    object it owns. *)
Definition Waitable := nat.

Inductive exn :=
| WaitableWaitException (what : string)
| bad_weak_ptr
| other_exception (tag : nat).

(** [std::exception_ptr]; [nullptr] is [None]. *)
Definition exception_ptr := option exn.

(** Line 155: the error [stop] hands to the waitables it drains. *)
Definition stop_error : exn := WaitableWaitException "Executor stoped".

(** What one call [w->wait(q_)] does: it returns a flag or it throws. *)
Inductive wait_result :=
| wait_returns (ready : bool)
| wait_throws (e : exn).

(** Modelled from the spec: the Task Runner capability.  The classes bound
    to [TPollFunctor] and [TDispatchFunctor] are template parameters and are
    not part of this repository; the spec gives their contract: [submit]
    accepts a unit of work, [stop] blocks until the work submitted before it
    has finished and must not drop it.  What a runner does with work that
    arrives after its [stop] is not specified, so [submit] takes the
    runner's decision as an argument.  Tasks keep their position, so a
    position identifies a task for its whole life. *)
Record TaskRunner (T : Type) := {
  tasks : list T;
  stop_called : bool
}.
Arguments tasks {T} _.
Arguments stop_called {T} _.

Definition started {T} : TaskRunner T := {| tasks := []; stop_called := false |}.

Definition submit {T} (accept : bool) (t : T) (r : TaskRunner T) : TaskRunner T :=
  if stop_called r && negb accept then r
  else {| tasks := tasks r ++ [t]; stop_called := stop_called r |}.

Definition runner_stop {T} (r : TaskRunner T) : TaskRunner T :=
  {| tasks := tasks r; stop_called := true |}.

Definition update_task {T} (i : nat) (t : T) (r : TaskRunner T) : TaskRunner T :=
  {| tasks := <[i:=t]> (tasks r); stop_called := stop_called r |}.

(** [joined finished mark r]: the first [mark] tasks of [r] (those submitted
    before the [stop] that recorded [mark]) have all finished. *)
Definition joined {T} (finished : T → bool) (mark : nat) (r : TaskRunner T) : bool :=
  forallb finished (take mark (tasks r)).

(** The poll loop (the lambda of lines 92-133), by program point. *)
Inductive poll_pc :=
| at_top                                         (* line 94, before the lock of line 98 *)
| holding (w : Waitable)                         (* line 109, [w] popped, before [wait] *)
| waited (w : Waitable) (ready : bool) (error : exception_ptr)   (* line 119 *)
| finished.                                      (* after the [break] of line 102 *)

(** A unit of work of the dispatch runner (the lambda of lines 129-131);
    [None] once it has run. *)
Abbreviation job := (option (Waitable * exception_ptr)).

(** A call of [watch], [stop] or the destructor, by program point. *)
Inductive frame :=
| watch_spawn                                            (* line 90 *)
| stop_runners (wasActive : bool) (pending : list Waitable)   (* line 149 *)
| stop_join_poll (mark : nat) (pending : list Waitable)       (* inside [pollFunc_.stop()] *)
| stop_join_dispatch (mark : nat) (pending : list Waitable)   (* inside [dispatchFunc_.stop()] *)
| stop_drain (pending : list Waitable)                   (* lines 154-160 *)
| returned
| raised (e : exn).

(** Who invoked [Waitable::dispatch]: a job of the dispatch runner, or the
    drain loop of the call of [stop] with the given number. *)
Inductive path :=
| by_dispatch
| by_stop (c : nat).

Inductive runner_id := poll_runner | dispatch_runner.

Global Instance exn_eq_dec : EqDecision exn.
Proof. solve_decision. Defined.
Global Instance wait_result_eq_dec : EqDecision wait_result.
Proof. solve_decision. Defined.
Global Instance path_eq_dec : EqDecision path.
Proof. solve_decision. Defined.
Global Instance runner_id_eq_dec : EqDecision runner_id.
Proof. solve_decision. Defined.

(** What the executor does to the outside, newest first in the log. *)
Inductive event :=
| ev_enqueued (w : Waitable)                 (* line 81 *)
| ev_discarded (w : Waitable)                (* line 78 *)
| ev_loop_submitted                          (* line 92 *)
| ev_wait (w : Waitable) (q : nat) (r : wait_result)   (* line 113 *)
| ev_handoff (w : Waitable) (error : exception_ptr)    (* line 129 *)
| ev_job_dropped (w : Waitable)              (* a stopped dispatch runner refused the job *)
| ev_complete (w : Waitable) (error : exception_ptr) (by_ : path)   (* lines 130, 157 *)
| ev_drain_aborted (c : nat) (e : exn) (undispatched : list Waitable)
    (* line 157 threw [e] out of call [c]: [pending] is destroyed, and with
       it the waitables behind the one that threw, without a [dispatch] *)
| ev_runner_stop (r : runner_id)             (* lines 150, 151: the call *)
| ev_runner_stopped (r : runner_id).         (* lines 150, 151: the return *)

Global Instance event_eq_dec : EqDecision event.
Proof. solve_decision. Defined.

Record state := {
  shared : bool;                  (* the object is managed by a [std::shared_ptr] *)
  q_ : nat;
  waitables_ : list Waitable;
  active_ : bool;
  isPollerRunning_ : bool;
  pollFunc_ : TaskRunner poll_pc;
  dispatchFunc_ : TaskRunner job;
  frames : list frame;
  log : list event
}.

(** The constructors (lines 40-62): both runners started, the members at
    their default initialisers (lines 167-169). *)
Definition PollingExecutor (shared : bool) (q : nat) : state :=
  {| shared := shared; q_ := q; waitables_ := []; active_ := true;
     isPollerRunning_ := false; pollFunc_ := started; dispatchFunc_ := started;
     frames := []; log := [] |}.

Inductive method :=
| watch (w : Waitable)
| stop
| destroy.

Inductive label :=
| call (m : method)                      (* a thread enters a method and runs its critical section *)
| spawn (c : nat) (accept : bool)        (* call [c] of [watch] runs lines 90-92 *)
| stop_step (c : nat)                    (* call [c] of [stop] takes its next step;
                                            at line 157, [dispatch] returns *)
| poll_take (p : nat)                    (* loop [p] runs lines 97-107 *)
| poll_wait (p : nat) (r : wait_result)  (* loop [p] runs lines 109-117 *)
| poll_route (p : nat) (accept : bool)   (* loop [p] runs lines 119-131 *)
| run_job (d : nat)                      (* the dispatch runner runs job [d] *)
| drain_throws (c : nat) (e : exn).      (* call [c] of [stop]: the [dispatch] of line 157 throws [e] *)

(** ** The methods *)

(** Lines 74-88 of [watch], one critical section. *)
Definition watch_locked (w : Waitable) (s : state) : state :=
  if negb (active_ s) then
    {| shared := shared s; q_ := q_ s; waitables_ := waitables_ s;
       active_ := active_ s; isPollerRunning_ := isPollerRunning_ s;
       pollFunc_ := pollFunc_ s; dispatchFunc_ := dispatchFunc_ s;
       frames := frames s ++ [returned];
       log := ev_discarded w :: log s |}
  else if isPollerRunning_ s then
    {| shared := shared s; q_ := q_ s; waitables_ := waitables_ s ++ [w];
       active_ := active_ s; isPollerRunning_ := isPollerRunning_ s;
       pollFunc_ := pollFunc_ s; dispatchFunc_ := dispatchFunc_ s;
       frames := frames s ++ [returned];
       log := ev_enqueued w :: log s |}
  else
    {| shared := shared s; q_ := q_ s; waitables_ := waitables_ s ++ [w];
       active_ := active_ s; isPollerRunning_ := true;
       pollFunc_ := pollFunc_ s; dispatchFunc_ := dispatchFunc_ s;
       frames := frames s ++ [watch_spawn];
       log := ev_enqueued w :: log s |}.

(** Lines 90-92 of [watch]: [shared_from_this] throws [bad_weak_ptr] when no
    [shared_ptr] manages the object; otherwise the loop is handed to the
    poll runner. *)
Definition watch_spawn_loop (c : nat) (accept : bool) (s : state) : state :=
  if shared s then
    {| shared := shared s; q_ := q_ s; waitables_ := waitables_ s;
       active_ := active_ s; isPollerRunning_ := isPollerRunning_ s;
       pollFunc_ := submit accept at_top (pollFunc_ s);
       dispatchFunc_ := dispatchFunc_ s;
       frames := <[c:=returned]> (frames s);
       log := ev_loop_submitted :: log s |}
  else
    {| shared := shared s; q_ := q_ s; waitables_ := waitables_ s;
       active_ := active_ s; isPollerRunning_ := isPollerRunning_ s;
       pollFunc_ := pollFunc_ s; dispatchFunc_ := dispatchFunc_ s;
       frames := <[c:=raised bad_weak_ptr]> (frames s);
       log := log s |}.

(** Lines 138-147 of [stop], one critical section. *)
Definition stop_locked (s : state) : state :=
  {| shared := shared s; q_ := q_ s; waitables_ := [];
     active_ := false; isPollerRunning_ := isPollerRunning_ s;
     pollFunc_ := pollFunc_ s; dispatchFunc_ := dispatchFunc_ s;
     frames := frames s ++ [stop_runners (active_ s) (waitables_ s)];
     log := log s |}.

(** Lines 64-67: the destructor is a call of [stop]. *)
Definition destructor (s : state) : state := stop_locked s.

Definition set_frame (c : nat) (f : frame) (evs : list event) (s : state) : state :=
  {| shared := shared s; q_ := q_ s; waitables_ := waitables_ s;
     active_ := active_ s; isPollerRunning_ := isPollerRunning_ s;
     pollFunc_ := pollFunc_ s; dispatchFunc_ := dispatchFunc_ s;
     frames := <[c:=f]> (frames s);
     log := evs ++ log s |}.

Definition is_finished (pc : poll_pc) : bool :=
  match pc with finished => true | _ => false end.

Definition has_run (j : job) : bool :=
  match j with None => true | Some _ => false end.

(** Lines 149-160 of [stop], for the call [c] standing at [f], as long as
    the calls of [dispatch] at line 157 return. *)
Definition stop_resume (c : nat) (f : frame) (s : state) : option state :=
  match f with
  | stop_runners true pending =>
      (* line 150: [pollFunc_.stop()] is called *)
      Some {| shared := shared s; q_ := q_ s; waitables_ := waitables_ s;
              active_ := active_ s; isPollerRunning_ := isPollerRunning_ s;
              pollFunc_ := runner_stop (pollFunc_ s);
              dispatchFunc_ := dispatchFunc_ s;
              frames := <[c:=stop_join_poll (length (tasks (pollFunc_ s))) pending]> (frames s);
              log := ev_runner_stop poll_runner :: log s |}
  | stop_runners false pending =>
      Some (set_frame c (stop_drain pending) [] s)
  | stop_join_poll mark pending =>
      (* [pollFunc_.stop()] returns; line 151: [dispatchFunc_.stop()] is called *)
      if joined is_finished mark (pollFunc_ s) then
        Some {| shared := shared s; q_ := q_ s; waitables_ := waitables_ s;
                active_ := active_ s; isPollerRunning_ := isPollerRunning_ s;
                pollFunc_ := pollFunc_ s;
                dispatchFunc_ := runner_stop (dispatchFunc_ s);
                frames := <[c:=stop_join_dispatch (length (tasks (dispatchFunc_ s))) pending]> (frames s);
                log := ev_runner_stop dispatch_runner :: ev_runner_stopped poll_runner :: log s |}
      else None
  | stop_join_dispatch mark pending =>
      if joined has_run mark (dispatchFunc_ s) then
        Some (set_frame c (stop_drain pending) [ev_runner_stopped dispatch_runner] s)
      else None
  | stop_drain [] =>
      Some (set_frame c returned [] s)
  | stop_drain (w :: pending) =>
      (* lines 157-158 *)
      Some (set_frame c (stop_drain pending) [ev_complete w (Some stop_error) (by_stop c)] s)
  | _ => None
  end.

(** Line 157 when [dispatch] throws.  [stop] has no handler around the
    call, so the exception leaves [stop] there and then: [dispatch] has been
    invoked on [w], and the local [pending] is destroyed on the way out with
    [w] still at its front and the waitables behind it never dispatched.
    The destructor is [noexcept], so out of it the exception ends in
    [std::terminate]; there, too, nothing behind [w] is dispatched, and the
    model keeps the call as [raised]. *)
Definition stop_unwind
    (c : nat) (w : Waitable) (pending : list Waitable) (e : exn) (s : state) : state :=
  set_frame c (raised e)
    [ev_drain_aborted c e pending; ev_complete w (Some stop_error) (by_stop c)] s.

(** ** The poll loop *)

(** Lines 97-107, one critical section. *)
Definition poll_locked (p : nat) (s : state) : state :=
  match waitables_ s with
  | w :: rest =>
      if active_ s then
        {| shared := shared s; q_ := q_ s; waitables_ := rest;
           active_ := active_ s; isPollerRunning_ := isPollerRunning_ s;
           pollFunc_ := update_task p (holding w) (pollFunc_ s);
           dispatchFunc_ := dispatchFunc_ s;
           frames := frames s; log := log s |}
      else
        {| shared := shared s; q_ := q_ s; waitables_ := waitables_ s;
           active_ := active_ s; isPollerRunning_ := false;
           pollFunc_ := update_task p finished (pollFunc_ s);
           dispatchFunc_ := dispatchFunc_ s;
           frames := frames s; log := log s |}
  | [] =>
      {| shared := shared s; q_ := q_ s; waitables_ := waitables_ s;
         active_ := active_ s; isPollerRunning_ := false;
         pollFunc_ := update_task p finished (pollFunc_ s);
         dispatchFunc_ := dispatchFunc_ s;
         frames := frames s; log := log s |}
  end.

(** Lines 109-117: [ready] starts as [true] and [error] as [nullptr]; a
    throwing [wait] leaves [ready] as it was and fills [error]. *)
Definition poll_try_wait (p : nat) (w : Waitable) (r : wait_result) (s : state) : state :=
  let pc := match r with
            | wait_returns ready => waited w ready None
            | wait_throws e => waited w true (Some e)
            end in
  {| shared := shared s; q_ := q_ s; waitables_ := waitables_ s;
     active_ := active_ s; isPollerRunning_ := isPollerRunning_ s;
     pollFunc_ := update_task p pc (pollFunc_ s);
     dispatchFunc_ := dispatchFunc_ s;
     frames := frames s;
     log := ev_wait w (q_ s) r :: log s |}.

(** Lines 119-131. *)
Definition poll_requeue_or_dispatch
    (p : nat) (w : Waitable) (ready : bool) (error : exception_ptr)
    (accept : bool) (s : state) : state :=
  if negb ready then
    {| shared := shared s; q_ := q_ s; waitables_ := waitables_ s ++ [w];
       active_ := active_ s; isPollerRunning_ := isPollerRunning_ s;
       pollFunc_ := update_task p at_top (pollFunc_ s);
       dispatchFunc_ := dispatchFunc_ s;
       frames := frames s; log := log s |}
  else
    {| shared := shared s; q_ := q_ s; waitables_ := waitables_ s;
       active_ := active_ s; isPollerRunning_ := isPollerRunning_ s;
       pollFunc_ := update_task p at_top (pollFunc_ s);
       dispatchFunc_ := submit accept (Some (w, error)) (dispatchFunc_ s);
       frames := frames s;
       log := (if stop_called (dispatchFunc_ s) && negb accept
               then ev_job_dropped w else ev_handoff w error) :: log s |}.

(** Lines 129-131, when the dispatch runner runs the job.  Whether
    [dispatch] returns or throws makes no difference to the executor here:
    the exception leaves through the dispatch runner. *)
Definition dispatch_job (d : nat) (w : Waitable) (error : exception_ptr) (s : state) : state :=
  {| shared := shared s; q_ := q_ s; waitables_ := waitables_ s;
     active_ := active_ s; isPollerRunning_ := isPollerRunning_ s;
     pollFunc_ := pollFunc_ s;
     dispatchFunc_ := update_task d None (dispatchFunc_ s);
     frames := frames s;
     log := ev_complete w error by_dispatch :: log s |}.

(** ** Steps and schedules *)

Definition step (a : label) (s : state) : option state :=
  match a with
  | call (watch w) => Some (watch_locked w s)
  | call stop => Some (stop_locked s)
  | call destroy => Some (destructor s)
  | spawn c accept =>
      match frames s !! c with
      | Some watch_spawn => Some (watch_spawn_loop c accept s)
      | _ => None
      end
  | stop_step c =>
      match frames s !! c with
      | Some f => stop_resume c f s
      | None => None
      end
  | poll_take p =>
      match tasks (pollFunc_ s) !! p with
      | Some at_top => Some (poll_locked p s)
      | _ => None
      end
  | poll_wait p r =>
      match tasks (pollFunc_ s) !! p with
      | Some (holding w) => Some (poll_try_wait p w r s)
      | _ => None
      end
  | poll_route p accept =>
      match tasks (pollFunc_ s) !! p with
      | Some (waited w ready error) =>
          Some (poll_requeue_or_dispatch p w ready error accept s)
      | _ => None
      end
  | run_job d =>
      match tasks (dispatchFunc_ s) !! d with
      | Some (Some (w, error)) => Some (dispatch_job d w error s)
      | _ => None
      end
  | drain_throws c e =>
      match frames s !! c with
      | Some (stop_drain (w :: pending)) => Some (stop_unwind c w pending e s)
      | _ => None
      end
  end.

Fixpoint exec (sched : list label) (s : state) : option state :=
  match sched with
  | [] => Some s
  | a :: sched' =>
      match step a s with
      | Some s' => exec sched' s'
      | None => None
      end
  end.

(** The waitables a schedule passes to [watch].  Each is a distinct object:
    [watch] takes a [unique_ptr]. *)
Fixpoint watched (sched : list label) : list Waitable :=
  match sched with
  | [] => []
  | call (watch w) :: sched' => w :: watched sched'
  | _ :: sched' => watched sched'
  end.

(** ** Where a waitable is, and what the log says about it *)

Definition hit (w x : Waitable) : nat := if decide (x = w) then 1 else 0.

Definition occ (w : Waitable) (l : list Waitable) : nat := sum_list_with (hit w) l.

Definition poll_holds (w : Waitable) (pc : poll_pc) : nat :=
  match pc with
  | holding x | waited x _ _ => hit w x
  | _ => 0
  end.

Definition job_holds (w : Waitable) (j : job) : nat :=
  match j with
  | Some (x, _) => hit w x
  | None => 0
  end.

(** The local [pending] of a call of [stop]. *)
Definition frame_pending (f : frame) : list Waitable :=
  match f with
  | stop_runners _ p | stop_join_poll _ p | stop_join_dispatch _ p | stop_drain p => p
  | _ => []
  end.

Definition frame_holds (w : Waitable) (f : frame) : nat := occ w (frame_pending f).

(** In how many places the executor owns [w]: the queue, a local of a poll
    loop, a job of the dispatch runner, the local queue of a [stop]. *)
Definition held (w : Waitable) (s : state) : nat :=
  occ w (waitables_ s)
  + sum_list_with (poll_holds w) (tasks (pollFunc_ s))
  + sum_list_with (job_holds w) (tasks (dispatchFunc_ s))
  + sum_list_with (frame_holds w) (frames s).

Definition completes (w : Waitable) (e : event) : nat :=
  match e with ev_complete x _ _ => hit w x | _ => 0 end.

Definition enqueues (w : Waitable) (e : event) : nat :=
  match e with ev_enqueued x => hit w x | _ => 0 end.

Definition discards (w : Waitable) (e : event) : nat :=
  match e with ev_discarded x => hit w x | _ => 0 end.

Definition drops (w : Waitable) (e : event) : nat :=
  match e with ev_job_dropped x => hit w x | _ => 0 end.

Definition abandons (w : Waitable) (e : event) : nat :=
  match e with ev_drain_aborted _ _ l => occ w l | _ => 0 end.

(** How often [Waitable::dispatch] has been invoked on [w]. *)
Definition completions (w : Waitable) (s : state) : nat :=
  sum_list_with (completes w) (log s).

(** How often [watch] has put [w] into the queue. *)
Definition accepted (w : Waitable) (s : state) : nat :=
  sum_list_with (enqueues w) (log s).

Definition discarded (w : Waitable) (s : state) : nat :=
  sum_list_with (discards w) (log s).

Definition dropped (w : Waitable) (s : state) : nat :=
  sum_list_with (drops w) (log s).

(** How often [w] was destroyed, without a [dispatch], behind a waitable
    whose [dispatch] threw at line 157. *)
Definition abandoned (w : Waitable) (s : state) : nat :=
  sum_list_with (abandons w) (log s).

(** Every accepted waitable is owned in one place, or has been completed,
    or was lost behind a [dispatch] that threw in a drain loop. *)
Definition conserved (s : state) : Prop :=
  ∀ w, held w s + completions w s + dropped w s + abandoned w s = accepted w s.

(** ** Poll loops *)

(** A call of [watch] that has set [isPollerRunning_] and has not yet
    reached the poll runner. *)
Definition spawning (f : frame) : nat :=
  match f with watch_spawn => 1 | _ => 0 end.

Definition alive (pc : poll_pc) : nat :=
  if is_finished pc then 0 else 1.

(** The poll loops that are alive in the poll runner. *)
Definition alive_loops (s : state) : nat :=
  sum_list_with alive (tasks (pollFunc_ s)).

(** The poll loops that are alive or about to be submitted. *)
Definition loops (s : state) : nat :=
  sum_list_with spawning (frames s) + alive_loops s.

Definition single_poller (s : state) : Prop :=
  loops s ≤ 1 ∧ (isPollerRunning_ s = false → loops s = 0).

(** ** Shutdown *)

(** A poll loop that owns no waitable. *)
Definition idle (pc : poll_pc) : bool :=
  match pc with at_top | finished => true | _ => false end.

(** The calls of [stop] that found the executor active, by how far they
    are through lines 149-152. *)
Definition before_poll_stop (f : frame) : nat :=
  match f with stop_runners true _ => 1 | _ => 0 end.

Definition in_poll_stop (f : frame) : nat :=
  match f with stop_join_poll _ _ => 1 | _ => 0 end.

Definition in_dispatch_stop (f : frame) : nat :=
  match f with stop_join_dispatch _ _ => 1 | _ => 0 end.

Definition stop_calls (r : runner_id) (e : event) : nat :=
  match e, r with
  | ev_runner_stop poll_runner, poll_runner => 1
  | ev_runner_stop dispatch_runner, dispatch_runner => 1
  | _, _ => 0
  end.

Definition stop_returns (r : runner_id) (e : event) : nat :=
  match e, r with
  | ev_runner_stopped poll_runner, poll_runner => 1
  | ev_runner_stopped dispatch_runner, dispatch_runner => 1
  | _, _ => 0
  end.

(** How often the executor has called, and has come back from, the [stop]
    of a runner. *)
Definition runner_stops (r : runner_id) (s : state) : nat :=
  sum_list_with (stop_calls r) (log s).

Definition runner_stopped (r : runner_id) (s : state) : nat :=
  sum_list_with (stop_returns r) (log s).

Definition flag (b : bool) : nat := if b then 1 else 0.

(** Exactly one call of [stop] finds the executor active, and it alone
    takes the two runners through their [stop], the poll runner first. *)
Definition shutdown_once (s : state) : Prop :=
  sum_list_with before_poll_stop (frames s) + runner_stops poll_runner s
    = flag (negb (active_ s))
  ∧ sum_list_with in_poll_stop (frames s) + runner_stops dispatch_runner s
    = runner_stops poll_runner s
  ∧ sum_list_with in_dispatch_stop (frames s) + runner_stopped dispatch_runner s
    = runner_stops dispatch_runner s
  ∧ runner_stopped poll_runner s = runner_stops dispatch_runner s
  ∧ flag (stop_called (pollFunc_ s)) = runner_stops poll_runner s
  ∧ flag (stop_called (dispatchFunc_ s)) = runner_stops dispatch_runner s.

(** While a call of [stop] is inside [pollFunc_.stop()], the loops that
    were submitted after that call own no waitable. *)
Definition late_loops_idle (s : state) : Prop :=
  ∀ c mark p, frames s !! c = Some (stop_join_poll mark p) →
    mark ≤ length (tasks (pollFunc_ s))
    ∧ ∀ i pc, mark ≤ i → tasks (pollFunc_ s) !! i = Some pc → idle pc = true.

(** Once [dispatchFunc_.stop()] has been called no poll loop owns a
    waitable, so none can reach line 129 any more. *)
Definition loops_idle_after_stop (s : state) : Prop :=
  stop_called (dispatchFunc_ s) = true →
  ∀ i pc, tasks (pollFunc_ s) !! i = Some pc → idle pc = true.

(** [dispatchFunc_.stop()] waits for every job there is, and when it has
    returned every job has run. *)
Definition jobs_joined (s : state) : Prop :=
  (∀ c mark p, frames s !! c = Some (stop_join_dispatch mark p) →
     mark = length (tasks (dispatchFunc_ s)))
  ∧ (1 ≤ runner_stopped dispatch_runner s →
     ∀ d j, tasks (dispatchFunc_ s) !! d = Some j → has_run j = true).

(** In the log (newest first) a runner's [stop] returns after it was
    called, and the dispatch runner's is called after the poll runner's has
    returned. *)
Fixpoint stops_in_order (l : list event) : Prop :=
  match l with
  | [] => True
  | e :: l' =>
      match e with
      | ev_runner_stop dispatch_runner => 1 ≤ sum_list_with (stop_returns poll_runner) l'
      | ev_runner_stopped r => 1 ≤ sum_list_with (stop_calls r) l'
      | _ => True
      end ∧ stops_in_order l'
  end.

Definition shutdown_ordered (s : state) : Prop :=
  shutdown_once s ∧ late_loops_idle s ∧ loops_idle_after_stop s ∧ jobs_joined s
  ∧ (∀ w, dropped w s = 0) ∧ stops_in_order (log s).

(** Both runners have been taken through their [stop]. *)
Definition runners_stopped (s : state) : Prop :=
  runner_stops poll_runner s = 1 ∧ runner_stopped poll_runner s = 1
  ∧ runner_stops dispatch_runner s = 1 ∧ runner_stopped dispatch_runner s = 1.

(** Call [c] is the call of [stop] that found the executor active: it is
    on its way through lines 149-152, or it is past them and both runners
    are stopped. *)
Definition stop_phase (c : nat) (s : state) : Prop :=
  ∃ f, frames s !! c = Some f
       ∧ match f with
         | stop_runners true _ | stop_join_poll _ _ | stop_join_dispatch _ _ => True
         | stop_drain _ | returned | raised _ => runners_stopped s
         | _ => False
         end.

(** The four runner events, in the order of lines 150-151 (the log is
    newest first). *)
Definition stopped_in_order (l : list event) : Prop :=
  ∃ l1 l2 l3 l4 l5,
    l = l1 ++ ev_runner_stopped dispatch_runner
        :: l2 ++ ev_runner_stop dispatch_runner
        :: l3 ++ ev_runner_stopped poll_runner
        :: l4 ++ ev_runner_stop poll_runner :: l5.

(** ** What a waitable is completed with *)

(** What the loop passes on after a [wait]: nothing when the waitable is
    not ready, else the error it captured (line 116) or [nullptr]. *)
Definition outcome (r : wait_result) : option exception_ptr :=
  match r with
  | wait_returns true => Some None
  | wait_returns false => None
  | wait_throws e => Some (Some e)
  end.

(** A [wait] that ended the polling of [w]: it returned [true] or threw. *)
Definition ready_wait (w : Waitable) (e : event) : nat :=
  match e with
  | ev_wait x _ (wait_returns true) | ev_wait x _ (wait_throws _) => hit w x
  | _ => 0
  end.

Definition ready_waits (w : Waitable) (s : state) : nat :=
  sum_list_with (ready_wait w) (log s).

(** Every call of [wait] on [w]. *)
Definition checks (w : Waitable) (e : event) : nat :=
  match e with ev_wait x _ _ => hit w x | _ => 0 end.

Definition stop_completes (w : Waitable) (e : event) : nat :=
  match e with ev_complete x _ (by_stop _) => hit w x | _ => 0 end.

Definition dispatch_completes (w : Waitable) (e : event) : nat :=
  match e with ev_complete x _ by_dispatch => hit w x | _ => 0 end.

(** A loop owns [w] and has not seen it ready. *)
Definition unready (w : Waitable) (pc : poll_pc) : nat :=
  match pc with
  | holding x | waited x false _ => hit w x
  | _ => 0
  end.

(** A loop owns [w] and is about to hand it to the dispatch runner. *)
Definition ready_held (w : Waitable) (pc : poll_pc) : nat :=
  match pc with
  | waited x true _ => hit w x
  | _ => 0
  end.

(** An accepted waitable is still unready (queued, polled, or taken by a
    [stop], which completes it or loses it) until the one [wait] that finds
    it ready; from then on it is on the dispatch path. *)
Definition readiness_accounted (s : state) : Prop :=
  ∀ w,
    ready_waits w s + occ w (waitables_ s)
      + sum_list_with (unready w) (tasks (pollFunc_ s))
      + sum_list_with (frame_holds w) (frames s)
      + sum_list_with (stop_completes w) (log s)
      + abandoned w s
    = accepted w s
    ∧ sum_list_with (ready_held w) (tasks (pollFunc_ s))
      + sum_list_with (job_holds w) (tasks (dispatchFunc_ s))
      + sum_list_with (dispatch_completes w) (log s)
      + dropped w s
    = ready_waits w s.

(** Some [wait] on [w] ended with what [error] says. *)
Definition justified (w : Waitable) (error : exception_ptr) (l : list event) : Prop :=
  ∃ q r, ev_wait w q r ∈ l ∧ outcome r = Some error.

Definition errors_justified (s : state) : Prop :=
  (∀ i w ready error, tasks (pollFunc_ s) !! i = Some (waited w ready error) →
     if ready then justified w error (log s) else error = None)
  ∧ (∀ d w error, tasks (dispatchFunc_ s) !! d = Some (Some (w, error)) →
     justified w error (log s))
  ∧ (∀ w error, ev_complete w error by_dispatch ∈ log s → justified w error (log s))
  ∧ (∀ w error c, ev_complete w error (by_stop c) ∈ log s → error = Some stop_error).

(** ** Destruction *)

Definition frame_done (f : frame) : bool :=
  match f with returned | raised _ => true | _ => false end.

(** No thread is inside a method and no poll loop is alive.  The loop keeps
    a [shared_ptr] to the executor (line 90), so the destructor can only
    run in such a state. *)
Definition at_rest (s : state) : bool :=
  forallb frame_done (frames s) && forallb is_finished (tasks (pollFunc_ s)).

(** The executor owns nothing any more. *)
Definition settled (s : state) : bool :=
  at_rest s && forallb has_run (tasks (dispatchFunc_ s))
  && bool_decide (waitables_ s = []).

(** The positions of the jobs in [l] that have not run, [l] starting at
    position [d]. *)
Fixpoint pending_from (d : nat) (l : list job) : list nat :=
  match l with
  | [] => []
  | Some _ :: l' => d :: pending_from (S d) l'
  | None :: l' => pending_from (S d) l'
  end.

(** What running the jobs of [l] in order appends to the log. *)
Fixpoint job_events (l : list job) : list event :=
  match l with
  | [] => []
  | Some (w, error) :: l' => job_events l' ++ [ev_complete w error by_dispatch]
  | None :: l' => job_events l'
  end.

(** What the drain loop of call [c] (lines 156-159) appends to the log. *)
Fixpoint drain_events (c : nat) (pending : list Waitable) : list event :=
  match pending with
  | [] => []
  | w :: pending' =>
      drain_events c pending' ++ [ev_complete w (Some stop_error) (by_stop c)]
  end.

(** The destructor run to its end by the destroying thread, while the
    dispatch runner finishes the jobs it still has. *)
Definition destroy_schedule (s : state) : list label :=
  let c := length (frames s) in
  [call destroy; stop_step c]
  ++ (if active_ s
      then stop_step c :: (run_job <$> pending_from 0 (tasks (dispatchFunc_ s)))
           ++ [stop_step c]
      else [])
  ++ repeat (stop_step c) (length (waitables_ s)) ++ [stop_step c].

Definition with_jobs (jobs : list job) (evs : list event) (s : state) : state :=
  {| shared := shared s; q_ := q_ s; waitables_ := waitables_ s;
     active_ := active_ s; isPollerRunning_ := isPollerRunning_ s;
     pollFunc_ := pollFunc_ s;
     dispatchFunc_ := {| tasks := jobs; stop_called := stop_called (dispatchFunc_ s) |};
     frames := frames s;
     log := evs ++ log s |}.

(** The state [destroy_schedule] ends in. *)
Definition destroyed (s : state) : state :=
  let c := length (frames s) in
  if active_ s then
    {| shared := shared s; q_ := q_ s; waitables_ := [];
       active_ := false; isPollerRunning_ := isPollerRunning_ s;
       pollFunc_ := runner_stop (pollFunc_ s);
       dispatchFunc_ := {| tasks := replicate (length (tasks (dispatchFunc_ s))) None; stop_called := true |};
       frames := frames s ++ [returned];
       log := drain_events c (waitables_ s)
              ++ ev_runner_stopped dispatch_runner
              :: job_events (tasks (dispatchFunc_ s))
              ++ ev_runner_stop dispatch_runner :: ev_runner_stopped poll_runner
              :: ev_runner_stop poll_runner :: log s |}
  else
    {| shared := shared s; q_ := q_ s; waitables_ := [];
       active_ := false; isPollerRunning_ := isPollerRunning_ s;
       pollFunc_ := pollFunc_ s; dispatchFunc_ := dispatchFunc_ s;
       frames := frames s ++ [returned];
       log := drain_events c (waitables_ s) ++ log s |}.

(** ** The stop path *)

(** What call [c] of [stop] has passed to [Waitable::dispatch] itself, in
    the order of the calls. *)
Fixpoint stop_path (c : nat) (l : list event) : list (Waitable * exception_ptr) :=
  match l with
  | [] => []
  | ev_complete w error (by_stop c') :: l' =>
      stop_path c l' ++ (if decide (c' = c) then [(w, error)] else [])
  | _ :: l' => stop_path c l'
  end.

(** What call [c] of [stop] has destroyed without a [dispatch], behind the
    waitable whose [dispatch] threw. *)
Fixpoint stop_lost (c : nat) (l : list event) : list Waitable :=
  match l with
  | [] => []
  | ev_drain_aborted c' _ rest :: l' =>
      (if decide (c' = c) then rest else []) ++ stop_lost c l'
  | _ :: l' => stop_lost c l'
  end.

(** What call [c] of [stop] still has to pass to [Waitable::dispatch]. *)
Definition stop_todo (c : nat) (s : state) : list (Waitable * exception_ptr) :=
  (λ w, (w, Some stop_error)) <$> default [] (frame_pending <$> frames s !! c).

(** What call [c] of [stop] has dispatched, has still to dispatch, and has
    lost, in this order. *)
Definition stop_account (c : nat) (s : state) : list (Waitable * exception_ptr) :=
  stop_path c (log s) ++ stop_todo c s
  ++ ((λ w, (w, Some stop_error)) <$> stop_lost c (log s)).

(** A call of [stop] that was left by an exception of line 157 stays
    [raised]. *)
Definition aborts_raised (s : state) : Prop :=
  ∀ c e rest, ev_drain_aborted c e rest ∈ log s → frames s !! c = Some (raised e).

(** Every job handed to the dispatch runner is still there or has run. *)
Definition handoffs_tracked (s : state) : Prop :=
  ∀ w error, ev_handoff w error ∈ log s →
    (∃ d, tasks (dispatchFunc_ s) !! d = Some (Some (w, error)))
    ∨ ev_complete w error by_dispatch ∈ log s.

(** An object that no [shared_ptr] manages never gets a poll loop. *)
Definition unshared_never_polls (s : state) : Prop :=
  shared s = false →
  tasks (pollFunc_ s) = [] ∧ tasks (dispatchFunc_ s) = []
  ∧ (ev_loop_submitted ∉ log s) ∧ (∀ w q r, ev_wait w q r ∉ log s).

(** ** Round robin *)

(** [u] has been polled since the log was [l0]. *)
Definition checked_since (l0 l : list event) (u : Waitable) : Prop :=
  sum_list_with (checks u) l0 < sum_list_with (checks u) l.

(** [w] was popped when the queue was [Q] and the log [l0], and has been
    polled once since.  Either every waitable of [Q] has been polled since,
    or [w] cannot be popped: the executor is inactive; or [w] has left the
    queue for good (it was found ready, or a [stop] took it); or the loop
    still has [w] in hand and the unpolled waitables of [Q] are all in the
    queue; or [w] is back in the queue and every unpolled waitable of [Q] is
    in front of it, or in the hand of a loop that is about to poll it. *)
Definition round_robin_inv
    (w : Waitable) (Q : list Waitable) (l0 : list event) (s : state) : Prop :=
  (∀ u, u ∈ Q → checked_since l0 (log s) u)
  ∨ (active_ s = false ∧ ∀ i, tasks (pollFunc_ s) !! i ≠ Some (holding w))
  ∨ (1 ≤ ready_waits w s + sum_list_with (frame_holds w) (frames s)
         + sum_list_with (stop_completes w) (log s) + abandoned w s)
  ∨ (active_ s = true
     ∧ (∃ i, tasks (pollFunc_ s) !! i = Some (waited w false None))
     ∧ ∀ u, u ∈ Q → ¬ checked_since l0 (log s) u → u ∈ waitables_ s)
  ∨ (active_ s = true
     ∧ ∃ l1 l2, waitables_ s = l1 ++ w :: l2
         ∧ ∀ u, u ∈ Q → ¬ checked_since l0 (log s) u →
             u ∈ l1 ∨ ∃ i, tasks (pollFunc_ s) !! i = Some (holding u)).

(** ** Shutting down *)

(** An upper bound on the steps the threads inside the executor can still
    take once it is inactive. *)
Definition poll_weight (pc : poll_pc) : nat :=
  match pc with
  | at_top => 1
  | holding _ => 4
  | waited _ _ _ => 3
  | finished => 0
  end.

Definition job_weight (j : job) : nat :=
  match j with Some _ => 1 | None => 0 end.

Definition frame_weight (f : frame) : nat :=
  match f with
  | watch_spawn => 3
  | stop_runners _ p => 4 + length p
  | stop_join_poll _ p => 3 + length p
  | stop_join_dispatch _ p => 2 + length p
  | stop_drain p => 1 + length p
  | returned | raised _ => 0
  end.

Definition work_left (s : state) : nat :=
  sum_list_with poll_weight (tasks (pollFunc_ s))
  + sum_list_with job_weight (tasks (dispatchFunc_ s))
  + sum_list_with frame_weight (frames s).

(** A step of a thread that is already inside the executor. *)
Definition internal (a : label) : bool :=
  match a with call _ => false | _ => true end.

(** A step in which no [dispatch] called by [stop] throws. *)
Definition returning (a : label) : bool :=
  match a with drain_throws _ _ => false | _ => true end.

(** A scheduler: the first live poll loop, else the first job that has not
    run, else the first call that has not returned. *)
Definition next_poll (p : nat) (pc : poll_pc) : label :=
  match pc with
  | at_top => poll_take p
  | holding _ => poll_wait p (wait_returns true)
  | _ => poll_route p true
  end.

Definition next_frame (c : nat) (f : frame) : label :=
  match f with
  | watch_spawn => spawn c true
  | _ => stop_step c
  end.

Definition next (s : state) : option label :=
  match list_find (λ pc, is_finished pc = false) (tasks (pollFunc_ s)) with
  | Some (p, pc) => Some (next_poll p pc)
  | None =>
      match list_find (λ j : job, has_run j = false) (tasks (dispatchFunc_ s)) with
      | Some (d, _) => Some (run_job d)
      | None =>
          match list_find (λ f, frame_done f = false) (frames s) with
          | Some (c, f) => Some (next_frame c f)
          | None => None
          end
      end
  end.

Fixpoint run_down (fuel : nat) (s : state) : list label :=
  match fuel with
  | 0 => []
  | S fuel' =>
      match next s with
      | Some a =>
          match step a s with
          | Some s' => a :: run_down fuel' s'
          | None => []
          end
      | None => []
      end
  end.

(** [stop] is called, every thread inside the executor runs to its end,
    and the executor is destroyed. *)
Definition shutdown (s : state) : list label :=
  let s1 := stop_locked s in
  let rd := run_down (work_left s1) s1 in
  call stop :: rd
  ++ match exec rd s1 with
     | Some s2 => destroy_schedule s2
     | None => []
     end.

(** ** Schedules used as examples *)

(** Three calls of [watch]; the first starts the loop, the others find it
    running. *)
Definition three_watchers : list label :=
  [call (watch 0); call (watch 1); spawn 0 true; poll_take 0;
   call (watch 2); poll_wait 0 (wait_returns false)].

(** A [watch] that arrives after [stop]. *)
Definition watch_after_stop : list label :=
  [call (watch 0); spawn 0 true; poll_take 0; poll_wait 0 (wait_returns true);
   poll_route 0 true; run_job 0; poll_take 0;
   call stop; stop_step 1; stop_step 1; stop_step 1; stop_step 1].

Definition stopped_state : state :=
  Eval vm_compute in
    default (PollingExecutor true 10) (exec watch_after_stop (PollingExecutor true 10)).

(** A [wait] that throws. *)
Definition throwing_wait : list label :=
  [call (watch 0); call (watch 1); spawn 0 true; poll_take 0].

Definition polling_state : state :=
  Eval vm_compute in
    default (PollingExecutor true 10) (exec throwing_wait (PollingExecutor true 10)).

(** A [stop] with the loop in a [wait] that then reports [true]. *)
Definition stop_during_wait : list label :=
  [call (watch 0); spawn 0 true; poll_take 0; call stop; stop_step 1;
   poll_wait 0 (wait_returns true); poll_route 0 false; poll_take 0;
   stop_step 1; run_job 0; stop_step 1; stop_step 1].

Definition stopped_during_wait : state :=
  Eval vm_compute in
    default (PollingExecutor true 10) (exec stop_during_wait (PollingExecutor true 10)).

(** The same, in two parts: up to the call of [stop], and the rest of that
    call. *)
Definition in_wait : list label :=
  [call (watch 0); spawn 0 true; poll_take 0].

Definition in_wait_state : state :=
  Eval vm_compute in
    default (PollingExecutor true 10) (exec in_wait (PollingExecutor true 10)).

Definition stop_in_wait : list label :=
  [stop_step 1; poll_wait 0 (wait_returns true); poll_route 0 false; poll_take 0;
   stop_step 1; run_job 0; stop_step 1; stop_step 1].

(** A [stop] while the loop is in a [wait] that then reports [false]; the
    [stop] runs to its end. *)
Definition stop_during_unready_wait : list label :=
  [call (watch 0); spawn 0 true; poll_take 0;
   call stop; stop_step 1;
   poll_wait 0 (wait_returns false); poll_route 0 true; poll_take 0;
   stop_step 1; stop_step 1; stop_step 1].

Definition stranded_state : state :=
  Eval vm_compute in
    default (PollingExecutor true 10)
      (exec stop_during_unready_wait (PollingExecutor true 10)).

(** Two waitables queued behind one that is being polled, with the loop
    finished early by an empty queue later on. *)
Definition two_queued : list label :=
  [call (watch 0); call (watch 1); call (watch 2); spawn 0 true; poll_take 0;
   poll_wait 0 (wait_returns true); poll_route 0 true].

Definition two_queued_state : state :=
  Eval vm_compute in
    default (PollingExecutor true 10) (exec two_queued (PollingExecutor true 10)).

(** The rest of a call of [stop] on [two_queued_state], with the poll loop
    and the dispatch runner finishing in between. *)
Definition stop_two_queued : list label :=
  [stop_step 3; poll_take 0; stop_step 3; run_job 0; stop_step 3;
   stop_step 3; stop_step 3; stop_step 3].

Definition two_queued_stopped : state :=
  Eval vm_compute in
    default two_queued_state (exec (call stop :: stop_two_queued) two_queued_state).

(** The same call of [stop], with the [dispatch] of waitable 1 throwing at
    line 157: waitable 2, behind it in [pending], is destroyed without a
    [dispatch]. *)
Definition stop_two_queued_throwing : list label :=
  [stop_step 3; poll_take 0; stop_step 3; run_job 0; stop_step 3;
   drain_throws 3 (other_exception 9)].

Definition two_queued_aborted : state :=
  Eval vm_compute in
    default two_queued_state
      (exec (call stop :: stop_two_queued_throwing) two_queued_state).

(** An executor on the stack: the first [watch] throws at line 90, the
    second finds [isPollerRunning_] set; both waitables sit in the queue
    when the executor goes out of scope. *)
Definition unshared_watches : list label :=
  [call (watch 5); spawn 0 true; call (watch 6)].

Definition unshared_state : state :=
  Eval vm_compute in
    default (PollingExecutor false 10) (exec unshared_watches (PollingExecutor false 10)).

(** The destructor of that executor, with the [dispatch] of waitable 5
    throwing at line 157. *)
Definition destroy_throwing : list label :=
  [call destroy; stop_step 2; stop_step 2; stop_step 2;
   drain_throws 2 (other_exception 9)].

Definition unshared_aborted : state :=
  Eval vm_compute in
    default unshared_state (exec destroy_throwing unshared_state).

(** Three waitables polled in turn. *)
Definition first_poll : list label :=
  [call (watch 0); call (watch 1); call (watch 2); spawn 0 true; poll_take 0].

Definition first_poll_state : state :=
  Eval vm_compute in
    default (PollingExecutor true 10) (exec first_poll (PollingExecutor true 10)).

Definition one_round : list label :=
  [poll_route 0 true;
   poll_take 0; poll_wait 0 (wait_returns false); poll_route 0 true;
   poll_take 0; poll_wait 0 (wait_returns false); poll_route 0 true;
   poll_take 0].

Definition second_poll_state : state :=
  Eval vm_compute in
    default first_poll_state
      (exec (poll_wait 0 (wait_returns false) :: one_round) first_poll_state).

(** A waitable that arrives while another is back in the queue after its
    first poll. *)
Definition late_arrival : list label :=
  [call (watch 0); spawn 0 true; poll_take 0; poll_wait 0 (wait_returns false);
   poll_route 0 true; call (watch 1); poll_take 0].

Definition late_arrival_state : state :=
  Eval vm_compute in
    default (PollingExecutor true 10) (exec late_arrival (PollingExecutor true 10)).

(** ** Further properties of the executor *)

(** A queued waitable of an active executor has a poll loop: while the
    executor is active, the queue is empty whenever [isPollerRunning_] is
    clear, and a set flag stands for exactly one loop that is alive or about
    to be submitted (on an object that a [shared_ptr] manages). *)
Definition poller_covers_queue (s : state) : Prop :=
  active_ s = true →
  (isPollerRunning_ s = false → waitables_ s = [])
  ∧ (shared s = true → isPollerRunning_ s = true → loops s = 1).

(** Every [wait] is called with the timeout given to the constructor. *)
Definition polls_with (q : nat) (s : state) : Prop :=
  q_ s = q ∧ ∀ w tq r, ev_wait w tq r ∈ log s → tq = q.

(** All calls of [wait]. *)
Definition polls (e : event) : nat :=
  match e with ev_wait _ _ _ => 1 | _ => 0 end.

(** A loop that has popped a waitable and not yet called its [wait]. *)
Definition in_hand (pc : poll_pc) : nat :=
  match pc with holding _ => 1 | _ => 0 end.

(** In the log (newest first), a [wait] on [w] comes only after nothing
    has ended the polling of [w]: no [wait] on it has returned [true] or
    thrown, and its [dispatch] has not been invoked. *)
Fixpoint polled_while_pending (w : Waitable) (l : list event) : Prop :=
  match l with
  | [] => True
  | e :: l' =>
      (1 ≤ checks w e →
       sum_list_with (ready_wait w) l' + sum_list_with (completes w) l' = 0
       ∧ 1 ≤ sum_list_with (enqueues w) l')
      ∧ polled_while_pending w l'
  end.

(** The waitables found ready, with what [wait] said, in the order of the
    calls of [wait]. *)
Fixpoint ready_order (l : list event) : list (Waitable * exception_ptr) :=
  match l with
  | [] => []
  | ev_wait w _ r :: l' =>
      ready_order l' ++ match outcome r with Some error => [(w, error)] | None => [] end
  | _ :: l' => ready_order l'
  end.

(** The jobs handed to the dispatch runner (line 129), in order. *)
Fixpoint handoff_order (l : list event) : list (Waitable * exception_ptr) :=
  match l with
  | [] => []
  | ev_handoff w error :: l' => handoff_order l' ++ [(w, error)]
  | _ :: l' => handoff_order l'
  end.

(** What a loop is about to hand over. *)
Definition about_to_dispatch (pc : poll_pc) : list (Waitable * exception_ptr) :=
  match pc with
  | waited w true error => [(w, error)]
  | _ => []
  end.

Definition readiness_order_kept (s : state) : Prop :=
  ready_order (log s)
  = handoff_order (log s) ++ flat_map about_to_dispatch (tasks (pollFunc_ s))
  ∧ length (tasks (dispatchFunc_ s)) = length (handoff_order (log s))
  ∧ ∀ d x, tasks (dispatchFunc_ s) !! d = Some (Some x) →
           handoff_order (log s) !! d = Some x.

(** Two waitables, the first not ready at its first poll: the second is
    handed to the dispatch runner before the first, whose second [wait]
    throws. *)
Definition ready_out_of_turn : list label :=
  [call (watch 0); call (watch 1); spawn 0 true;
   poll_take 0; poll_wait 0 (wait_returns false); poll_route 0 true;
   poll_take 0; poll_wait 0 (wait_returns true); poll_route 0 true;
   poll_take 0; poll_wait 0 (wait_throws (other_exception 7)); poll_route 0 true].

Definition ready_out_of_turn_state : state :=
  Eval vm_compute in
    default (PollingExecutor true 10) (exec ready_out_of_turn (PollingExecutor true 10)).

(** A poll loop that may still push its waitable back at line 122. *)
Definition may_requeue (pc : poll_pc) : nat :=
  match pc with holding _ | waited _ false _ => 1 | _ => 0 end.

(** What the queue of an inactive executor can hold. *)
Definition one_stranded (s : state) : Prop :=
  active_ s = false →
  length (waitables_ s) + sum_list_with may_requeue (tasks (pollFunc_ s)) ≤ 1.

(** Some [wait] on [w] reported [false]. *)
Definition polled_unready (w : Waitable) (l : list event) : Prop :=
  ∃ q, ev_wait w q (wait_returns false) ∈ l.

(** A waitable in the queue of an inactive executor was put back there by
    a poll loop. *)
Definition stranded_polled (s : state) : Prop :=
  (∀ p w error, tasks (pollFunc_ s) !! p = Some (waited w false error) →
     polled_unready w (log s))
  ∧ (active_ s = false → ∀ w, w ∈ waitables_ s → polled_unready w (log s)).

(** * Proofs *)

(** ** Lists updated in place *)

Lemma sum_list_with_insert {A} (f : A → nat) (l : list A) i x y :
  l !! i = Some x →
  ∃ r, sum_list_with f l = f x + r ∧ sum_list_with f (<[i:=y]> l) = f y + r.
Proof.
  revert i. induction l as [|a l IH]; intros [|i] Hi; simplify_eq/=.
  - eauto.
  - destruct (IH i Hi) as (r & -> & ->). exists (f a + r). lia.
Qed.

(** [cut_sums]: split every sum over a list updated in place into the part
    of the updated position and the rest. *)
Ltac cut_sums :=
  repeat match goal with
  | H : ?l !! ?i = Some ?x |- context [sum_list_with ?f (<[?i:=?y]> ?l)] =>
      let r := fresh "r" in
      let E1 := fresh "E" in
      let E2 := fresh "E" in
      destruct (sum_list_with_insert f l i x y H) as (r & E1 & E2);
      rewrite E2; try rewrite E1 in *; clear E2
  end.

(** [step_cases H]: one goal per path through the source for a step
    [H : step a s = Some s']. *)
Ltac step_cases H :=
  match type of H with
  | step ?a ?s = Some _ =>
      destruct s as [ssh tq ws act run [pts pstop] [jobs dstop] fs lg];
      destruct a as [[lw| |]|lc lacc|lc|lp|lp lr|lp lacc|ld|lc lexn];
      unfold step, destructor, watch_locked, watch_spawn_loop, stop_locked,
        stop_resume, stop_unwind, set_frame, poll_locked, poll_try_wait,
        poll_requeue_or_dispatch, dispatch_job, submit, runner_stop,
        update_task, joined in H;
      cbn [shared q_ waitables_ active_ isPollerRunning_ pollFunc_
           dispatchFunc_ frames log tasks stop_called negb] in H;
      repeat case_match; simplify_eq;
      repeat match goal with
             | E : negb ?b = _ |- _ => destruct b; simplify_eq/=
             end
  end.

Lemma exec_app sched1 sched2 s :
  exec (sched1 ++ sched2) s =
  match exec sched1 s with Some s' => exec sched2 s' | None => None end.
Proof.
  revert s. induction sched1 as [|a l IH]; intros s; simpl; [done|].
  destruct (step a s); [apply IH|done].
Qed.

Lemma exec_invariant (P : state → Prop) :
  (∀ a s s', P s → step a s = Some s' → P s') →
  ∀ sched s s', P s → exec sched s = Some s' → P s'.
Proof.
  intros Hstep sched. induction sched as [|a l IH]; intros s s' Hs He; simplify_eq/=.
  - done.
  - destruct (step a s) as [s1|] eqn:Ea; [|done]. eauto.
Qed.

(** ** Conservation *)

Lemma conserved_step a s s' : conserved s → step a s = Some s' → conserved s'.
Proof.
  intros Hc Hs u. specialize (Hc u). revert Hc.
  unfold held, completions, dropped, accepted, occ.
  step_cases Hs; cbn; rewrite ?sum_list_with_app; cbn; intros; cut_sums; cbn in *; try lia.
  all: unfold frame_holds, occ in *; cbn in *; try lia.
Qed.

(** ** Reachable states *)

Lemma exec_snoc sched a s :
  exec (sched ++ [a]) s =
  match exec sched s with Some s' => step a s' | None => None end.
Proof.
  rewrite exec_app. destruct (exec sched s) as [s'|]; [|done].
  simpl. by destruct (step a s').
Qed.

Lemma reach_ind (init : state) (P : list label → state → Prop) :
  P [] init →
  (∀ sched a s s',
     exec sched init = Some s → P sched s → step a s = Some s' → P (sched ++ [a]) s') →
  ∀ sched s, exec sched init = Some s → P sched s.
Proof.
  intros H0 Hstep sched. induction sched as [|a sched IH] using rev_ind; intros s He.
  - by simplify_eq/=.
  - rewrite exec_snoc in He. destruct (exec sched init) as [s0|] eqn:E0; [|done]. eauto.
Qed.

Lemma watched_app sched1 sched2 : watched (sched1 ++ sched2) = watched sched1 ++ watched sched2.
Proof.
  induction sched1 as [|[[w| |]| | | | | | |] l IH]; simpl; by rewrite ?IH.
Qed.

(** ** One poll loop *)

Ltac flag_cases :=
  repeat match goal with
  | H : true = false → _ |- _ => clear H
  | H : false = false → _ |- _ => specialize (H eq_refl)
  | H : ?b = false → _ |- _ => destruct b
  end.

Lemma single_poller_step a s s' : single_poller s → step a s = Some s' → single_poller s'.
Proof.
  unfold single_poller, loops, alive_loops. intros [Hle Hz] Hs. revert Hle Hz.
  step_cases Hs; cbn; rewrite ?sum_list_with_app; cbn; intros; cut_sums; cbn in *;
    flag_cases; (split; [lia|intros; first [done|lia]]).
Qed.

(** ** Shutdown *)

Lemma shutdown_once_step a s s' : shutdown_once s → step a s = Some s' → shutdown_once s'.
Proof.
  unfold shutdown_once, runner_stops, runner_stopped.
  intros (H1 & H2 & H3 & H4 & H5 & H6) Hs. revert H1 H2 H3 H4 H5 H6.
  step_cases Hs; cbn; rewrite ?sum_list_with_app; cbn; intros; cut_sums; cbn in *;
    unfold flag in *; repeat case_match; simplify_eq/=; repeat split; lia.
Qed.

Lemma joined_lookup {T} (f : T → bool) mark (r : TaskRunner T) i x :
  joined f mark r = true → i < mark → tasks r !! i = Some x → f x = true.
Proof.
  unfold joined. rewrite forallb_forall. intros Hall Hi Hx.
  apply Hall, list_elem_of_In, (list_elem_of_lookup_2 _ i).
  by rewrite lookup_take_lt.
Qed.

Lemma joined_all {T} (f : T → bool) (r : TaskRunner T) :
  (∀ i x, tasks r !! i = Some x → f x = true) → ∀ mark, joined f mark r = true.
Proof.
  intros Hall mark. unfold joined. apply forallb_forall. intros x Hx.
  apply list_elem_of_In, list_elem_of_lookup in Hx as [i Hi].
  apply lookup_take_Some in Hi as [Hi _]. eauto.
Qed.

Lemma sum_list_with_lookup {A} (f : A → nat) (l : list A) i x :
  l !! i = Some x → f x ≤ sum_list_with f l.
Proof. intros Hi. apply sum_list_with_in. by eapply list_elem_of_lookup_2. Qed.

(** [lookups]: a lookup in a list that was updated in place or extended
    is a lookup in the list before, or the new element. *)
Ltac lookups :=
  repeat match goal with
  | H : <[_:=_]> _ !! _ = Some _ |- _ =>
      apply list_lookup_insert_Some in H; destruct H as [(? & ? & ?)|[? ?]]
  | H : (_ ++ [_]) !! _ = Some _ |- _ =>
      apply lookup_snoc_Some in H; destruct H as [[? ?]|[? ?]]
  end; simplify_eq/=.

Lemma late_loops_idle_step a s s' :
  shutdown_once s → late_loops_idle s → step a s = Some s' → late_loops_idle s'.
Proof.
  unfold shutdown_once, late_loops_idle, runner_stops, runner_stopped.
  intros (Hon1 & Hon2 & _) Hl Hs c mark pend. revert Hon1 Hon2 Hl.
  step_cases Hs; cbn; intros Hon1 Hon2 Hl Hf; lookups;
   try (match goal with
        | H : _ !! _ = Some (stop_join_poll _ _) |- _ =>
            pose proof (sum_list_with_lookup in_poll_stop _ _ _ H);
            destruct (Hl _ _ _ H) as [Hm Hi]
        end);
   rewrite ?length_insert, ?length_app; cbn in *.
  all: try (split; [lia|]; intros i pc Hge Hpc; lookups; eauto;
            try (by (eapply Hi; [|eassumption]; lia))).
  all: try (match goal with
            | H : ?l !! ?i = Some ?x, G : ?l !! ?i = Some ?y |- _ =>
                rewrite H in G; simplify_eq
            end).
  all: try (by (apply lookup_lt_Some in Hpc; lia)).
  all: try (match goal with
            | G : _ !! _ = Some (holding _) |- _ => by (apply Hi in G; [|lia])
            | G : _ !! _ = Some (waited _ _ _) |- _ => by (apply Hi in G; [|lia])
            end).
  all: unfold flag in *; cbn in *; lia.
Qed.

Lemma loops_idle_after_stop_step a s s' :
  shutdown_once s → late_loops_idle s → loops_idle_after_stop s →
  step a s = Some s' → loops_idle_after_stop s'.
Proof.
  unfold shutdown_once, late_loops_idle, loops_idle_after_stop, runner_stops, runner_stopped.
  intros (Hon1 & Hon2 & _ & _ & _ & Hon6) Hl Hd Hs. revert Hon1 Hon2 Hon6 Hl Hd.
  step_cases Hs; cbn; intros Hon1 Hon2 Hon6 Hl Hd Hdstop i pc Hpc; lookups; eauto.
  all: try (match goal with
            | G : _ !! _ = Some (holding _) |- _ => by (apply Hd in G; [|done..])
            | G : _ !! _ = Some (waited _ _ _) |- _ => by (apply Hd in G; [|done..])
            end).
  - (* [pollFunc_.stop()] has returned *)
    match goal with
    | G : _ !! _ = Some (stop_join_poll ?m _), J : forallb _ _ = true |- _ =>
        destruct (Hl _ _ _ G) as [Hm Hi]; destruct (decide (i < m)) as [Hlt|Hge];
        [ pose proof (joined_lookup is_finished m {| tasks := pts; stop_called := pstop |}
                        i pc J Hlt Hpc) as Hfin; by destruct pc
        | apply (Hi i pc); [lia|done] ]
    end.
  - (* a loop at line 98 in an executor that is shutting down *)
    unfold flag in *; cbn in *; lia.
Qed.

Lemma jobs_joined_step a s s' :
  shutdown_once s → loops_idle_after_stop s → jobs_joined s →
  step a s = Some s' → jobs_joined s'.
Proof.
  unfold shutdown_once, loops_idle_after_stop, jobs_joined, runner_stops, runner_stopped.
  intros (_ & _ & Hon3 & _ & _ & Hon6) Hd [Hj Hr] Hs. revert Hon3 Hon6 Hd Hj Hr.
  step_cases Hs; cbn; intros Hon3 Hon6 Hd Hj Hr;
    (split; [intros c0 mk pend Hf|intros Hret d0 j0 Hjob]); lookups;
    rewrite ?length_insert, ?length_app; eauto.
  all: try (match goal with
            | G : _ !! _ = Some (stop_join_dispatch _ _) |- _ =>
                pose proof (sum_list_with_lookup in_dispatch_stop _ _ _ G); cbn in *
            end).
  all: try (match goal with
            | G : _ !! _ = Some (waited _ _ _) |- _ =>
                by (apply Hd in G; [|unfold flag in *; destruct dstop; cbn in *; (done || lia)])
            end).
  - (* [dispatchFunc_.stop()] has returned *)
    match goal with
    | G : _ !! _ = Some (stop_join_dispatch ?m _), J : forallb _ _ = true |- _ =>
        apply (joined_lookup has_run m {| tasks := jobs; stop_called := dstop |} d0 j0 J);
        [rewrite (Hj _ _ _ G); by eapply lookup_lt_Some|done]
    end.
Qed.

Lemma no_drops_step a s s' :
  loops_idle_after_stop s → (∀ w, dropped w s = 0) →
  step a s = Some s' → ∀ w, dropped w s' = 0.
Proof.
  unfold loops_idle_after_stop, dropped.
  intros Hd Hn Hs u. specialize (Hn u). revert Hd Hn.
  step_cases Hs; cbn; intros Hd Hn; try done.
  match goal with
  | G : _ !! _ = Some (waited _ _ _), E : _ && _ = true |- _ =>
      apply andb_prop in E as [E _]; by apply (Hd E) in G
  end.
Qed.

Lemma stops_in_order_step a s s' :
  shutdown_once s → stops_in_order (log s) →
  step a s = Some s' → stops_in_order (log s').
Proof.
  unfold shutdown_once, runner_stops, runner_stopped.
  intros (_ & Hon2 & Hon3 & Hon4 & _) Ho Hs. revert Hon2 Hon3 Hon4 Ho.
  step_cases Hs; cbn; intros Hon2 Hon3 Hon4 Ho; try done.
  all: try (match goal with
            | G : _ !! _ = Some (stop_join_poll _ _) |- _ =>
                pose proof (sum_list_with_lookup in_poll_stop _ _ _ G)
            | G : _ !! _ = Some (stop_join_dispatch _ _) |- _ =>
                pose proof (sum_list_with_lookup in_dispatch_stop _ _ _ G)
            end); cbn in *; repeat split; try done; try lia.
Qed.

Lemma shutdown_ordered_step a s s' :
  shutdown_ordered s → step a s = Some s' → shutdown_ordered s'.
Proof.
  intros (Hon & Hl & Hd & Hj & Hn & Ho) Hs. unfold shutdown_ordered. split_and!.
  - by eapply shutdown_once_step.
  - by eapply late_loops_idle_step.
  - by eapply loops_idle_after_stop_step.
  - by eapply jobs_joined_step.
  - by eapply no_drops_step.
  - by eapply stops_in_order_step.
Qed.

Lemma shutdown_ordered_init sh q : shutdown_ordered (PollingExecutor sh q).
Proof.
  unfold shutdown_ordered, jobs_joined. split_and!; try done.
  all: try (intros c mark p Hf; by rewrite lookup_nil in Hf).
  all: cbn; lia.
Qed.

Lemma reach_shutdown_ordered sh q sched s :
  exec sched (PollingExecutor sh q) = Some s → shutdown_ordered s.
Proof.
  apply exec_invariant; [apply shutdown_ordered_step|apply shutdown_ordered_init].
Qed.

(** ** Accounting *)

Lemma occ_app w l1 l2 : occ w (l1 ++ l2) = occ w l1 + occ w l2.
Proof. apply sum_list_with_app. Qed.

Lemma occ_elem_of w l : 1 ≤ occ w l ↔ w ∈ l.
Proof.
  unfold occ, hit. induction l as [|x l IH]; cbn.
  - split; [lia|by intros ?%elem_of_nil].
  - rewrite elem_of_cons, <- IH. case_decide as Hx; [subst; split; [auto|lia]|].
    split; [intros; right; lia|intros [->|?]; [done|lia]].
Qed.

Lemma occ_NoDup w l : NoDup l → occ w l ≤ 1.
Proof.
  unfold occ, hit. induction 1 as [|x l Hx _ IH]; cbn; [lia|].
  case_decide; [subst|lia].
  assert (¬ 1 ≤ occ w l) by by rewrite occ_elem_of. unfold occ, hit in *. lia.
Qed.

Lemma watch_accounting_step a s s' w :
  step a s = Some s' →
  accepted w s' + discarded w s' = accepted w s + discarded w s + occ w (watched [a]).
Proof.
  unfold accepted, discarded, occ. intros Hs.
  step_cases Hs; cbn; lia.
Qed.

Lemma reach_watch_accounting sh q sched s w :
  exec sched (PollingExecutor sh q) = Some s →
  accepted w s + discarded w s = occ w (watched sched).
Proof.
  revert sched s. apply reach_ind; [done|].
  intros sched a s s' _ IH Hs.
  rewrite watched_app, occ_app, (watch_accounting_step _ _ _ _ Hs). lia.
Qed.

Lemma reach_conserved sh q sched s :
  exec sched (PollingExecutor sh q) = Some s → conserved s.
Proof.
  apply exec_invariant; [apply conserved_step|]. by intros w.
Qed.

Lemma readiness_accounted_step a s s' :
  readiness_accounted s → step a s = Some s' → readiness_accounted s'.
Proof.
  intros Hc Hs u. specialize (Hc u). revert Hc.
  unfold ready_waits, accepted, dropped, occ.
  step_cases Hs; cbn; rewrite ?sum_list_with_app; cbn; intros [? ?]; cut_sums; cbn in *;
    unfold frame_holds, occ in *; cbn in *; repeat case_match; split; lia.
Qed.

Lemma reach_readiness_accounted sh q sched s :
  exec sched (PollingExecutor sh q) = Some s → readiness_accounted s.
Proof.
  apply exec_invariant; [apply readiness_accounted_step|]. by intros w.
Qed.

Lemma justified_cons w error e l : justified w error l → justified w error (e :: l).
Proof. intros (q & r & Hin & Ho). exists q, r. split; [by right|done]. Qed.

Lemma errors_justified_step a s s' :
  errors_justified s → step a s = Some s' → errors_justified s'.
Proof.
  unfold errors_justified. intros (Hp & Hj & Hd & Hst) Hs. revert Hp Hj Hd Hst.
  step_cases Hs; cbn; intros Hp Hj Hd Hst;
    (split_and!;
     [intros i0 u rdy err Hl|intros d0 u err Hl|intros u err Hl|intros u err c0 Hl]).
  all: lookups.
  all: repeat match goal with
              | G : _ ∈ _ :: _ |- _ => apply elem_of_cons in G as [G|G]; simplify_eq
              end.
  all: repeat match goal with
              | G : _ !! _ = Some (waited _ _ _) |- _ => apply Hp in G
              | G : _ !! _ = Some (Some (_, _)) |- _ => apply Hj in G
              | G : ev_complete _ _ by_dispatch ∈ _ |- _ => apply Hd in G
              | G : ev_complete _ _ (by_stop _) ∈ _ |- _ => apply Hst in G
              end.
  all: try done.
  all: try destruct rdy; try done.
  all: try (by (eexists _, _; (split; [left; reflexivity|done]))).
  all: repeat apply justified_cons; done.
Qed.

(** ** Running [stop] to its end *)

Lemma set_frame_set_frame c f1 f2 e1 e2 s :
  set_frame c f2 e2 (set_frame c f1 e1 s) = set_frame c f2 (e2 ++ e1) s.
Proof.
  unfold set_frame; cbn. f_equal; [apply list_insert_insert_eq|by rewrite app_assoc].
Qed.

Lemma exec_drain c pend s :
  frames s !! c = Some (stop_drain pend) →
  exec (repeat (stop_step c) (length pend) ++ [stop_step c]) s
  = Some (set_frame c returned (drain_events c pend) s).
Proof.
  revert s. induction pend as [|w pend IH]; intros s Hf; cbn.
  - by rewrite Hf.
  - rewrite Hf. cbn. rewrite IH.
    + by rewrite set_frame_set_frame.
    + cbn. apply list_lookup_insert_eq. by eapply lookup_lt_Some.
Qed.


Lemma exec_run_jobs l pre s :
  tasks (dispatchFunc_ s) = pre ++ l →
  exec (run_job <$> pending_from (length pre) l) s
  = Some (with_jobs (pre ++ replicate (length l) None) (job_events l) s).
Proof.
  revert pre s. induction l as [|[[w e]|] l IH]; intros pre s Ht.
  - cbn. rewrite <- Ht. by destruct s as [? ? ? ? ? ? [? ?] ? ?].
  - cbn. rewrite Ht, list_lookup_middle by done.
    specialize (IH (pre ++ [None])). rewrite length_app, Nat.add_1_r in IH.
    rewrite IH.
    + unfold dispatch_job, with_jobs; cbn. rewrite <- !app_assoc. by f_equal.
    + cbn. rewrite Ht. replace (length pre) with (length pre + 0) by lia.
      rewrite insert_app_r. cbn. by rewrite <- app_assoc.
  - cbn. specialize (IH (pre ++ [None])). rewrite length_app, Nat.add_1_r in IH.
    rewrite IH; [|by rewrite Ht, <- app_assoc].
    by rewrite <- app_assoc.
Qed.

Lemma lookup_snoc_last {A} (l : list A) x : (l ++ [x]) !! length l = Some x.
Proof. by apply list_lookup_middle. Qed.

Lemma insert_snoc_last {A} (l : list A) x y : <[length l:=y]> (l ++ [x]) = l ++ [y].
Proof.
  replace (length l) with (length l + 0) by lia. by rewrite insert_app_r.
Qed.

Lemma joined_finished_all {T} (f : T → bool) (r : TaskRunner T) mark :
  forallb f (tasks r) = true → joined f mark r = true.
Proof.
  intros Hall. apply joined_all. intros i x Hx.
  rewrite forallb_forall in Hall. apply Hall, list_elem_of_In.
  by eapply list_elem_of_lookup_2.
Qed.

Lemma forallb_replicate_None n : forallb has_run (replicate n (None : job)) = true.
Proof. by induction n. Qed.

Lemma exec_destroy s :
  forallb is_finished (tasks (pollFunc_ s)) = true →
  exec (destroy_schedule s) s = Some (destroyed s).
Proof.
  destruct s as [sh tq ws act run [pts pstop] [jobs dstop] fs lg]. cbn. intros Hfin.
  unfold destroy_schedule, destroyed, destructor, stop_locked. cbn.
  rewrite lookup_snoc_last. destruct act; cbn.
  - rewrite insert_snoc_last, lookup_snoc_last. cbn.
    rewrite (joined_finished_all is_finished
               (runner_stop {| tasks := pts; stop_called := pstop |})) by done.
    rewrite insert_snoc_last, <- !app_assoc, exec_app.
    rewrite (exec_run_jobs jobs []) by done. cbn.
    rewrite lookup_snoc_last. cbn. unfold joined. cbn.
    rewrite take_ge by (by rewrite length_replicate).
    rewrite forallb_replicate_None.
    rewrite exec_drain by (cbn; by rewrite insert_snoc_last, lookup_snoc_last).
    unfold set_frame. cbn. rewrite !insert_snoc_last, <- ?app_assoc. cbn.
    by rewrite <- ?app_assoc.
  - rewrite exec_drain by (cbn; by rewrite insert_snoc_last, lookup_snoc_last).
    unfold set_frame. cbn. by rewrite !insert_snoc_last.
Qed.

(** ** The stop path *)

Lemma frames_length_step a s s' :
  step a s = Some s' → length (frames s) ≤ length (frames s').
Proof.
  intros Hs. step_cases Hs; cbn; rewrite ?length_app, ?length_insert; cbn; lia.
Qed.


Lemma stop_path_fresh_step a s s' :
  (∀ c, length (frames s) ≤ c → stop_path c (log s) = [] ∧ stop_lost c (log s) = []) →
  step a s = Some s' →
  ∀ c, length (frames s') ≤ c → stop_path c (log s') = [] ∧ stop_lost c (log s') = [].
Proof.
  intros Hfr Hs c0. specialize (Hfr c0). revert Hfr.
  step_cases Hs; cbn; rewrite ?length_app, ?length_insert; cbn; intros Hfr Hc;
    try (apply Hfr; lia).
  all: destruct Hfr as [Hp Hl]; [lia|]; rewrite Hp, Hl; cbn.
  all: match goal with G : _ !! _ = Some _ |- _ => apply lookup_lt_Some in G end.
  all: rewrite ?decide_False by lia.
  all: split; reflexivity.
Qed.

Lemma reach_stop_path_fresh sh q sched s :
  exec sched (PollingExecutor sh q) = Some s →
  ∀ c, length (frames s) ≤ c → stop_path c (log s) = [] ∧ stop_lost c (log s) = [].
Proof.
  apply (exec_invariant
           (λ s, ∀ c, length (frames s) ≤ c →
                      stop_path c (log s) = [] ∧ stop_lost c (log s) = []));
    [apply stop_path_fresh_step|done].
Qed.

Lemma stop_progress_step a s s' c0 :
  step a s = Some s' → c0 < length (frames s) →
  stop_account c0 s' = stop_account c0 s.
Proof.
  unfold stop_account, stop_todo. intros Hs.
  step_cases Hs; cbn; intros Hc; rewrite ?lookup_app_l by done; try done.
  all: rewrite list_lookup_insert; repeat case_decide; destruct_and?; simplify_eq;
    repeat match goal with G : _ !! _ = Some _ |- _ => rewrite G end; cbn;
    rewrite ?fmap_app, ?app_nil_r, <- ?app_assoc; try done.
  all: exfalso; naive_solver lia.
Qed.

Lemma stop_progress_exec sched s s' c0 :
  exec sched s = Some s' → c0 < length (frames s) →
  stop_account c0 s' = stop_account c0 s.
Proof.
  revert s. induction sched as [|a l IH]; intros s He Hc; simplify_eq/=; [done|].
  destruct (step a s) as [s1|] eqn:Ea; [|done].
  rewrite (IH s1), (stop_progress_step a s s1) by
    (first [done | apply frames_length_step in Ea; lia]). done.
Qed.

(** ** The log *)

Lemma log_grows_step a s s' : step a s = Some s' → ∃ evs, log s' = evs ++ log s.
Proof.
  intros Hs. step_cases Hs; cbn;
    first [by exists [] | by eexists [_] | by eexists [_; _]].
Qed.

Lemma log_grows_exec sched s s' : exec sched s = Some s' → ∃ evs, log s' = evs ++ log s.
Proof.
  revert s. induction sched as [|a l IH]; intros s He; simplify_eq/=; [by exists []|].
  destruct (step a s) as [s1|] eqn:Ea; [|done].
  destruct (log_grows_step _ _ _ Ea) as [e1 E1], (IH _ He) as [e2 E2].
  exists (e2 ++ e1). by rewrite E2, E1, app_assoc.
Qed.

Lemma counter_mono (f : event → nat) sched s s' :
  exec sched s = Some s' → sum_list_with f (log s) ≤ sum_list_with f (log s').
Proof.
  intros [evs ->]%log_grows_exec. rewrite sum_list_with_app. lia.
Qed.

Lemma handoffs_tracked_step a s s' :
  handoffs_tracked s → step a s = Some s' → handoffs_tracked s'.
Proof.
  unfold handoffs_tracked. intros Hh Hs u err. specialize (Hh u err). revert Hh.
  step_cases Hs; cbn; intros Hh Hin;
    repeat match goal with
           | G : _ ∈ _ :: _ |- _ => apply elem_of_cons in G as [G|G]; simplify_eq
           end.
  all: try (destruct (Hh Hin) as [[d0 Hd0]|Hc]).
  all: try (right; by repeat right).
  all: try (left; by exists d0).
  all: try (left; exists d0; by apply lookup_app_l_Some).
  - left. eexists. apply lookup_snoc_last.
  - destruct (decide (d0 = ld)) as [->|Hne].
    + right. rewrite H in Hd0. simplify_eq. by left.
    + left. exists d0. by rewrite list_lookup_insert_ne.
Qed.

Lemma reach_handoffs_tracked sh q sched s :
  exec sched (PollingExecutor sh q) = Some s → handoffs_tracked s.
Proof.
  apply exec_invariant; [apply handoffs_tracked_step|].
  intros w e Hin. by apply elem_of_nil in Hin.
Qed.

Lemma reach_errors_justified sh q sched s :
  exec sched (PollingExecutor sh q) = Some s → errors_justified s.
Proof.
  apply exec_invariant; [apply errors_justified_step|].
  unfold errors_justified; cbn. split_and!; intros *; rewrite ?lookup_nil; try done.
  all: by intros ?%elem_of_nil.
Qed.

Lemma reach_single_poller sh q sched s :
  exec sched (PollingExecutor sh q) = Some s → single_poller s.
Proof.
  apply exec_invariant; [apply single_poller_step|]. split; [cbn; lia|done].
Qed.

Lemma stop_returns_elem r l :
  1 ≤ sum_list_with (stop_returns r) l → ev_runner_stopped r ∈ l.
Proof.
  induction l as [|e l IH]; cbn; [lia|]. intros Hs.
  destruct (decide (e = ev_runner_stopped r)) as [->|Hne]; [by left|].
  right. apply IH. destruct e as [| | | | | | | |r'|r']; cbn in Hs; try lia.
  destruct r', r; cbn in Hs; first [lia|done].
Qed.

Lemma stop_calls_elem r l :
  1 ≤ sum_list_with (stop_calls r) l → ev_runner_stop r ∈ l.
Proof.
  induction l as [|e l IH]; cbn; [lia|]. intros Hs.
  destruct (decide (e = ev_runner_stop r)) as [->|Hne]; [by left|].
  right. apply IH. destruct e as [| | | | | | | |r'|r']; cbn in Hs; try lia.
  destruct r', r; cbn in Hs; first [lia|done].
Qed.

Lemma stops_in_order_suffix l1 l2 : stops_in_order (l1 ++ l2) → stops_in_order l2.
Proof. induction l1 as [|e l1 IH]; [done|]. intros [_ H]. by apply IH. Qed.

Lemma unshared_never_polls_step a s s' :
  unshared_never_polls s → step a s = Some s' → unshared_never_polls s'.
Proof.
  unfold unshared_never_polls. intros Hu Hs. revert Hu.
  step_cases Hs; cbn; intros Hu Hsh; destruct (Hu Hsh) as (Hp & Hj & Hl & Hw);
    simplify_eq/=; try done.
  all: split_and!; try done.
  all: try (intros u q0 r0); rewrite ?not_elem_of_cons; split_and!; try done.
Qed.

Lemma reach_unshared_never_polls sh q sched s :
  exec sched (PollingExecutor sh q) = Some s → unshared_never_polls s ∧ shared s = sh.
Proof.
  apply (exec_invariant (λ s, unshared_never_polls s ∧ shared s = sh)).
  - intros a s0 s1 [Hu Hsh] Hs. split; [by eapply unshared_never_polls_step|].
    rewrite <- Hsh. clear -Hs. step_cases Hs; done.
  - split; [|done]. intros _. cbn. split_and!; try done.
    + by intros ?%elem_of_nil.
    + by intros ? ? ? ?%elem_of_nil.
Qed.

(** [distinct]: the waitables of a concrete schedule are distinct objects. *)
Ltac distinct :=
  cbn;
  repeat (apply NoDup_cons_2;
          [rewrite ?not_elem_of_cons; split_and?; first [done|apply not_elem_of_nil]|]);
  apply NoDup_nil_2.

(** [in_log]: an event is in a concrete log. *)
Ltac in_log := vm_compute; repeat first [by left | right].

(** ** A call of [stop], from its critical section to its return *)

Lemma stop_path_elem c u e l :
  (u, e) ∈ stop_path c l → ev_complete u e (by_stop c) ∈ l.
Proof.
  induction l as [|ev l IH]; cbn; [by intros ?%elem_of_nil|].
  destruct ev as [| | | | | |w err [|c']| | |]; try (intros Hin; right; by apply IH).
  rewrite elem_of_app. intros [Hin|Hin]; [right; by apply IH|].
  case_decide; [subst|by apply elem_of_nil in Hin].
  apply list_elem_of_singleton in Hin. simplify_eq. by left.
Qed.

Lemma stop_call_progress sh q sched s sched' s' :
  exec sched (PollingExecutor sh q) = Some s →
  exec (call stop :: sched') s = Some s' →
  stop_account (length (frames s)) s' = (λ w, (w, Some stop_error)) <$> waitables_ s.
Proof.
  intros He He'. cbn in He'.
  rewrite (stop_progress_exec _ _ _ _ He') by (cbn; rewrite length_app; cbn; lia).
  unfold stop_account, stop_todo. cbn. rewrite lookup_snoc_last. cbn.
  destruct (reach_stop_path_fresh _ _ _ _ He (length (frames s))) as [-> ->]; [done|].
  cbn. by rewrite app_nil_r.
Qed.

Lemma sum_list_with_zero {A} (f : A → nat) (g : A → bool) (l : list A) :
  (∀ x, g x = true → f x = 0) → forallb g l = true → sum_list_with f l = 0.
Proof.
  intros Hfg. induction l as [|x l IH]; cbn; [done|].
  intros [Hx Hl]%andb_prop. rewrite (Hfg x Hx), IH; done.
Qed.

Lemma settled_held w s : settled s = true → held w s = 0.
Proof.
  unfold settled, at_rest, held.
  intros [[[Hf Hp]%andb_prop Hj]%andb_prop Hq%bool_decide_eq_true]%andb_prop.
  rewrite Hq. cbn.
  rewrite (sum_list_with_zero (poll_holds w) is_finished) by (done || by intros []).
  rewrite (sum_list_with_zero (job_holds w) has_run) by (done || by intros [[]|]).
  rewrite (sum_list_with_zero (frame_holds w) frame_done) by (done || by intros []).
  done.
Qed.

Lemma watched_destroy_schedule s : watched (destroy_schedule s) = [].
Proof.
  unfold destroy_schedule. cbn.
  assert (∀ l, watched (run_job <$> l) = []) as Hj by (by induction l).
  assert (∀ c n, watched (repeat (stop_step c) n) = []) as Hr by (by induction n).
  destruct (active_ s); cbn; rewrite ?watched_app, ?Hj, ?Hr; done.
Qed.

Lemma accepted_unchanged sh q sched s sched' s' w :
  exec sched (PollingExecutor sh q) = Some s →
  exec sched' s = Some s' → watched sched' = [] →
  accepted w s' = accepted w s.
Proof.
  intros He He' Hw.
  assert (exec (sched ++ sched') (PollingExecutor sh q) = Some s') as Hall
    by (by rewrite exec_app, He).
  pose proof (reach_watch_accounting _ _ _ _ w He) as H1.
  pose proof (reach_watch_accounting _ _ _ _ w Hall) as H2.
  rewrite watched_app, Hw, app_nil_r in H2.
  pose proof (counter_mono (enqueues w) _ _ _ He').
  pose proof (counter_mono (discards w) _ _ _ He').
  unfold accepted, discarded in *. lia.
Qed.

Lemma queued_accepted sh q sched s w :
  exec sched (PollingExecutor sh q) = Some s → w ∈ waitables_ s → 1 ≤ accepted w s.
Proof.
  intros He Hin%occ_elem_of.
  pose proof (reach_conserved _ _ _ _ He w) as Hc. unfold held in Hc. lia.
Qed.

Lemma accepted_once sh q sched s w :
  exec sched (PollingExecutor sh q) = Some s → NoDup (watched sched) → accepted w s ≤ 1.
Proof.
  intros He Hnd. pose proof (reach_watch_accounting _ _ _ _ w He).
  pose proof (occ_NoDup w _ Hnd). lia.
Qed.

Lemma queue_NoDup sh q sched s :
  exec sched (PollingExecutor sh q) = Some s → NoDup (watched sched) →
  NoDup (waitables_ s).
Proof.
  intros He Hnd.
  assert (∀ w, occ w (waitables_ s) ≤ 1) as Hocc.
  { intros w. pose proof (accepted_once _ _ _ _ w He Hnd).
    pose proof (reach_conserved _ _ _ _ He w) as Hc. unfold held in Hc. lia. }
  clear -Hocc. induction (waitables_ s) as [|x l IH]; [constructor|].
  constructor.
  - intros Hin%occ_elem_of. specialize (Hocc x). unfold occ, hit in *. cbn in Hocc.
    rewrite decide_True in Hocc by done. lia.
  - apply IH. intros w. specialize (Hocc w). unfold occ in *. cbn in Hocc. lia.
Qed.

Lemma at_rest_destroyed s : at_rest s = true → at_rest (destroyed s) = true.
Proof.
  unfold at_rest, destroyed. intros [Hf Hp]%andb_prop.
  destruct (active_ s); cbn; rewrite forallb_app, Hf, Hp; done.
Qed.

Lemma forallb_lookup {A} (f : A → bool) (l : list A) :
  (∀ i x, l !! i = Some x → f x = true) → forallb f l = true.
Proof.
  intros Hall. apply forallb_forall. intros x Hx.
  apply list_elem_of_In, list_elem_of_lookup in Hx as [i Hi]. eauto.
Qed.

Lemma rest_inactive_jobs_run sh q sched s :
  exec sched (PollingExecutor sh q) = Some s →
  at_rest s = true → active_ s = false →
  forallb has_run (tasks (dispatchFunc_ s)) = true.
Proof.
  intros He [Hf _]%andb_prop Hact.
  destruct (reach_shutdown_ordered _ _ _ _ He)
    as ((H1 & H2 & H3 & _) & _ & _ & [_ Hj] & _).
  rewrite Hact in H1. cbn in H1.
  rewrite (sum_list_with_zero before_poll_stop frame_done) in H1
    by (done || by intros []).
  rewrite (sum_list_with_zero in_poll_stop frame_done) in H2
    by (done || by intros []).
  rewrite (sum_list_with_zero in_dispatch_stop frame_done) in H3
    by (done || by intros []).
  apply forallb_lookup. apply Hj. lia.
Qed.

Lemma settled_destroyed sh q sched s :
  exec sched (PollingExecutor sh q) = Some s →
  at_rest s = true → settled (destroyed s) = true.
Proof.
  intros He Hrest. unfold settled. rewrite (at_rest_destroyed _ Hrest). cbn.
  apply andb_true_intro. split; [|unfold destroyed; by destruct (active_ s)].
  unfold destroyed. destruct (active_ s) eqn:Hact; cbn.
  - apply forallb_replicate_None.
  - by eapply rest_inactive_jobs_run.
Qed.

Lemma abandoned_destroyed w s : abandoned w (destroyed s) = abandoned w s.
Proof.
  assert (∀ c l, sum_list_with (abandons w) (drain_events c l) = 0) as Hd.
  { intros c l. induction l as [|x l IH]; [done|].
    cbn. rewrite sum_list_with_app, IH. done. }
  assert (∀ l, sum_list_with (abandons w) (job_events l) = 0) as Hj.
  { induction l as [|[[x err]|] l IH]; [done| |done].
    cbn. rewrite sum_list_with_app, IH. done. }
  unfold abandoned, destroyed. destruct (active_ s); cbn.
  - rewrite sum_list_with_app, Hd. cbn. rewrite sum_list_with_app, Hj. done.
  - by rewrite sum_list_with_app, Hd.
Qed.

(** Destroying an executor at rest, with every [dispatch] of the drain
    loop returning, completes every waitable it has accepted and has not
    lost before. *)
Lemma destroy_completes sh q sched s :
  exec sched (PollingExecutor sh q) = Some s →
  NoDup (watched sched) → at_rest s = true →
  exec (destroy_schedule s) s = Some (destroyed s)
  ∧ settled (destroyed s) = true
  ∧ ∀ w, 1 ≤ accepted w s →
      held w (destroyed s) = 0
      ∧ completions w (destroyed s) + abandoned w s = 1.
Proof.
  intros He Hnd Hrest.
  assert (exec (destroy_schedule s) s = Some (destroyed s)) as Hd.
  { apply exec_destroy. by apply andb_prop in Hrest as [_ ?]. }
  pose proof (settled_destroyed _ _ _ _ He Hrest) as Hset.
  split_and!; [done..|]. intros w Hacc.
  assert (exec (sched ++ destroy_schedule s) (PollingExecutor sh q) = Some (destroyed s))
    as Hall by (by rewrite exec_app, He).
  pose proof (reach_conserved _ _ _ _ Hall w) as Hc.
  destruct (reach_shutdown_ordered _ _ _ _ Hall) as (_ & _ & _ & _ & Hn & _).
  rewrite (settled_held _ _ Hset), (Hn w), abandoned_destroyed in Hc.
  rewrite (accepted_unchanged _ _ _ _ _ _ w He Hd (watched_destroy_schedule s)) in Hc.
  pose proof (accepted_once _ _ _ _ w He Hnd).
  split; [by apply settled_held|lia].
Qed.

(** ** Round robin *)

Lemma sum_list_with_lookup2 {A} (f : A → nat) (l : list A) i j x y :
  i ≠ j → l !! i = Some x → l !! j = Some y → f x + f y ≤ sum_list_with f l.
Proof.
  revert i j. induction l as [|a l IH]; intros [|i] [|j] Hij Hi Hj; simplify_eq/=.
  - pose proof (sum_list_with_lookup f l j y Hj). lia.
  - pose proof (sum_list_with_lookup f l i x Hi). lia.
  - assert (f x + f y ≤ sum_list_with f l); [|lia]. eapply (IH i j); eauto.
Qed.

Lemma checks_mono_step a s s' u :
  step a s = Some s' →
  sum_list_with (checks u) (log s) ≤ sum_list_with (checks u) (log s').
Proof.
  intros [evs ->]%log_grows_step. rewrite sum_list_with_app. lia.
Qed.

Lemma left_for_good_step w a s s' :
  step a s = Some s' →
  ready_waits w s + sum_list_with (frame_holds w) (frames s)
    + sum_list_with (stop_completes w) (log s) + abandoned w s
  ≤ ready_waits w s' + sum_list_with (frame_holds w) (frames s')
    + sum_list_with (stop_completes w) (log s') + abandoned w s'.
Proof.
  unfold ready_waits, abandoned. intros Hs.
  step_cases Hs; cbn; rewrite ?sum_list_with_app; cbn; cut_sums; cbn;
    unfold frame_holds, occ in *; cbn in *; repeat case_match; lia.
Qed.

Lemma never_popped_step w a s s' :
  active_ s = false → (∀ i, tasks (pollFunc_ s) !! i ≠ Some (holding w)) →
  step a s = Some s' →
  active_ s' = false ∧ ∀ i, tasks (pollFunc_ s') !! i ≠ Some (holding w).
Proof.
  intros Hact Hno Hs. revert Hact Hno.
  step_cases Hs; cbn; intros Hact Hno; (split; [done|]); try done.
  all: intros i0 Hi0; lookups; by eapply Hno.
Qed.

Lemma two_alive_loops (pts : list poll_pc) i j x y :
  sum_list_with alive pts ≤ 1 → i ≠ j →
  pts !! i = Some x → pts !! j = Some y →
  is_finished x = false → is_finished y = false → False.
Proof.
  intros Hle Hij Hi Hj Hx Hy.
  pose proof (sum_list_with_lookup2 alive _ _ _ _ _ Hij Hi Hj) as H2.
  assert (alive x = 1) by (unfold alive; by rewrite Hx).
  assert (alive y = 1) by (unfold alive; by rewrite Hy). lia.
Qed.

Lemma two_holders w (pts : list poll_pc) i j x y :
  sum_list_with (poll_holds w) pts ≤ 1 → i ≠ j →
  pts !! i = Some x → pts !! j = Some y →
  poll_holds w x = 1 → poll_holds w y = 1 → False.
Proof.
  intros Hh Hij Hi Hj Hx Hy.
  pose proof (sum_list_with_lookup2 (poll_holds w) _ _ _ _ _ Hij Hi Hj) as H2. lia.
Qed.

Lemma hit_same w : hit w w = 1.
Proof. unfold hit. by rewrite decide_True. Qed.

Lemma round_robin_in_hand_step w Q l0 a s s' i :
  single_poller s → held w s ≤ 1 →
  active_ s = true →
  tasks (pollFunc_ s) !! i = Some (waited w false None) →
  (∀ u, u ∈ Q → ¬ checked_since l0 (log s) u → u ∈ waitables_ s) →
  step a s = Some s' → round_robin_inv w Q l0 s'.
Proof.
  intros [Hsp _] Hh Hact Hi HQ Hs.
  unfold round_robin_inv, checked_since, loops, alive_loops, held in *.
  revert Hsp Hh Hact Hi HQ.
  step_cases Hs; cbn; intros Hsp Hh Hact Hi HQ; simplify_eq/=.
  all: assert (sum_list_with alive pts ≤ 1) as Hone by lia.
  all: assert (sum_list_with (poll_holds w) pts ≤ 1) as Hhold by lia.
  (* the loop that has [w] in hand is the only one alive *)
  all: try (exfalso;
            match goal with
            | G : _ !! ?j = Some ?pc |- _ =>
                lazymatch pc with
                | at_top => idtac | holding _ => idtac | waited _ _ _ => idtac
                end;
                assert (j ≠ i) by (intros ->; rewrite G in Hi; simplify_eq);
                by eapply (two_alive_loops _ j i _ _ Hone)
            end).
  (* [stop]: the executor is inactive from now on *)
  all: try (right; left; split; [done|]; intros j Hj;
            assert (j ≠ i) by (intros ->; rewrite Hj in Hi; simplify_eq);
            by (eapply (two_holders w _ j i _ _ Hhold); eauto; cbn; apply hit_same)).
  (* nothing that matters has changed *)
  all: try (do 3 right; left; split_and!;
            [done
            |exists i; first [done|by apply lookup_app_l_Some]
            |intros u Hu Hc; first [by apply HQ|apply elem_of_app; left; by apply HQ]]).
  (* line 122: [w] goes to the back of the queue *)
  destruct (decide (lp = i)) as [->|Hne];
    [|exfalso; by eapply (two_alive_loops _ lp i _ _ Hone)].
  rewrite Hi in *. simplify_eq.
  do 4 right. split; [done|]. exists ws, []. split; [done|].
  intros u Hu Hc. left. by apply HQ.
Qed.

Lemma round_robin_queued_step w Q l0 a s s' l1 l2 :
  single_poller s → held w s ≤ 1 →
  (∀ u, sum_list_with (checks u) l0 ≤ sum_list_with (checks u) (log s)) →
  active_ s = true →
  waitables_ s = l1 ++ w :: l2 →
  (∀ u, u ∈ Q → ¬ checked_since l0 (log s) u →
     u ∈ l1 ∨ ∃ i, tasks (pollFunc_ s) !! i = Some (holding u)) →
  step a s = Some s' → round_robin_inv w Q l0 s'.
Proof.
  intros [Hsp _] Hh Hmono Hact Hq HQ Hs.
  unfold round_robin_inv, checked_since, loops, alive_loops, held, occ in *.
  revert Hsp Hh Hmono Hact Hq HQ.
  step_cases Hs; cbn; intros Hsp Hh Hmono Hact Hq HQ; simplify_eq/=.
  all: assert (sum_list_with alive pts ≤ 1) as Hone by lia.
  all: try (assert (sum_list_with (poll_holds w) pts = 0) as Hhold
              by (rewrite sum_list_with_app in Hh; cbn in Hh;
                  rewrite hit_same in Hh; lia)).
  (* [stop]: the executor is inactive from now on *)
  all: try (right; left; split; [done|]; intros j Hj;
            pose proof (sum_list_with_lookup (poll_holds w) _ _ _ Hj) as Hle;
            cbn in Hle; rewrite hit_same in Hle; lia).
  (* nothing that matters has changed *)
  all: try (do 4 right; split; [done|]; exists l1, l2; split; [done|];
            intros u Hu Hc; destruct (HQ u Hu Hc) as [?|[j Hj]]; [by left|];
            right; exists j; first [done|by apply lookup_app_l_Some]).
  (* [watch]: the new waitable goes behind [w] *)
  1-2: do 4 right; split; [done|]; exists l1, (l2 ++ [lw]);
       (split; [by rewrite <- app_assoc|]); intros u Hu Hc;
       (destruct (HQ u Hu Hc) as [?|[j Hj]]; [by left|right; by exists j]).
  - (* the queue is not empty *)
    by destruct l1.
  - (* line 105: the head of the queue is popped *)
    destruct l1 as [|x l1]; simplify_eq/=.
    + left. intros u Hu.
      destruct (decide (sum_list_with (checks u) l0 < sum_list_with (checks u) lg))
        as [|Hc]; [done|].
      destruct (HQ u Hu Hc) as [Hin|[j Hj]]; [by apply elem_of_nil in Hin|].
      exfalso. assert (lp ≠ j) by (intros ->; congruence).
      by eapply (two_alive_loops _ lp j _ _ Hone).
    + do 4 right. split; [done|]. exists l1, l2. split; [done|].
      intros u Hu Hc. destruct (HQ u Hu Hc) as [[->|Hin]%elem_of_cons|[j Hj]].
      * right. exists lp. apply list_lookup_insert_eq. by eapply lookup_lt_Some.
      * by left.
      * right. exists j. rewrite list_lookup_insert_ne; [done|]. intros ->. congruence.
  - (* line 113: [wait] returns *)
    do 4 right. split; [done|]. exists l1, l2. split; [done|].
    intros u Hu Hc. destruct (HQ u Hu ltac:(lia)) as [?|[j Hj]]; [by left|].
    destruct (decide (j = lp)) as [->|Hne].
    + exfalso. pose proof (Hmono u) as Hm. simplify_eq.
      rewrite hit_same in Hc. lia.
    + right. exists j. by rewrite list_lookup_insert_ne.
  - (* line 113: [wait] throws *)
    do 4 right. split; [done|]. exists l1, l2. split; [done|].
    intros u Hu Hc. destruct (HQ u Hu ltac:(lia)) as [?|[j Hj]]; [by left|].
    destruct (decide (j = lp)) as [->|Hne].
    + exfalso. pose proof (Hmono u) as Hm. simplify_eq.
      rewrite hit_same in Hc. lia.
    + right. exists j. by rewrite list_lookup_insert_ne.
  - (* line 122: another waitable goes behind [w] *)
    do 4 right. split; [done|]. eexists l1, (l2 ++ [_]). split; [by rewrite <- app_assoc|].
    intros u Hu Hc. destruct (HQ u Hu Hc) as [?|[j Hj]]; [by left|].
    right. exists j. rewrite list_lookup_insert_ne; [done|]. intros ->. congruence.
  - do 4 right. split; [done|]. exists l1, l2. split; [done|].
    intros u Hu Hc. destruct (HQ u Hu Hc) as [?|[j Hj]]; [by left|].
    right. exists j. rewrite list_lookup_insert_ne; [done|]. intros ->. congruence.
  - do 4 right. split; [done|]. exists l1, l2. split; [done|].
    intros u Hu Hc. destruct (HQ u Hu Hc) as [?|[j Hj]]; [by left|].
    right. exists j. rewrite list_lookup_insert_ne; [done|]. intros ->. congruence.
Qed.

Lemma round_robin_step w Q l0 a s s' :
  single_poller s → held w s ≤ 1 →
  (∀ u, sum_list_with (checks u) l0 ≤ sum_list_with (checks u) (log s)) →
  round_robin_inv w Q l0 s → step a s = Some s' → round_robin_inv w Q l0 s'.
Proof.
  intros Hsp Hh Hmono
    [Hc|[[Hact Hno]|[Hgone|[(Hact & [i Hi] & HQ)|(Hact & l1 & l2 & Hq & HQ)]]]] Hs.
  - left. intros u Hu. specialize (Hc u Hu). unfold checked_since in *.
    pose proof (checks_mono_step _ _ _ u Hs). lia.
  - right. left. by eapply never_popped_step.
  - right. right. left. pose proof (left_for_good_step w _ _ _ Hs). lia.
  - by eapply round_robin_in_hand_step.
  - by eapply round_robin_queued_step.
Qed.

Lemma held_once sh q sched s w :
  exec sched (PollingExecutor sh q) = Some s → NoDup (watched sched) → held w s ≤ 1.
Proof.
  intros He Hnd. pose proof (accepted_once _ _ _ _ w He Hnd).
  pose proof (reach_conserved _ _ _ _ He w). lia.
Qed.

Lemma round_robin_exec sh q w Q l0 sched2 :
  ∀ sched s s2,
    exec sched (PollingExecutor sh q) = Some s →
    NoDup (watched (sched ++ sched2)) →
    (∀ u, sum_list_with (checks u) l0 ≤ sum_list_with (checks u) (log s)) →
    round_robin_inv w Q l0 s →
    exec sched2 s = Some s2 → round_robin_inv w Q l0 s2.
Proof.
  induction sched2 as [|a rest IH]; intros sched s s2 He Hnd Hmono Hinv He2;
    simplify_eq/=; [done|].
  destruct (step a s) as [s'|] eqn:Hs; [|done].
  assert (NoDup (watched sched)) as Hnd0.
  { rewrite watched_app in Hnd. by apply NoDup_app in Hnd as [? _]. }
  apply (IH (sched ++ [a]) s'); try done.
  - by rewrite exec_snoc, He.
  - by rewrite <- app_assoc.
  - intros u. pose proof (checks_mono_step _ _ _ u Hs). specialize (Hmono u). lia.
  - eapply round_robin_step; [..|done|done]; try done.
    + by eapply reach_single_poller.
    + by eapply held_once.
Qed.

(** ** Shutting down *)

Lemma work_left_step a s s' :
  active_ s = false → internal a = true → step a s = Some s' →
  work_left s' < work_left s ∧ active_ s' = false.
Proof.
  unfold work_left. intros Hact Hint Hs. revert Hact Hint.
  step_cases Hs; cbn; rewrite ?sum_list_with_app; cbn; intros Hact Hint; try done;
    cut_sums; cbn in *; (split; [lia|done]).
Qed.

Lemma next_enabled s a :
  next s = Some a → internal a = true ∧ ∃ s', step a s = Some s'.
Proof.
  unfold next. intros Hn.
  destruct (list_find _ (tasks (pollFunc_ s))) as [[p pc]|] eqn:Hp.
  { apply list_find_Some in Hp as (Hp & Hfin & _). simplify_eq.
    destruct pc; try done; cbn; rewrite Hp; eauto. }
  destruct (list_find _ (tasks (dispatchFunc_ s))) as [[d j]|] eqn:Hd.
  { apply list_find_Some in Hd as (Hd & Hrun & _). simplify_eq.
    destruct j as [[w e]|]; [|done]. cbn. rewrite Hd. eauto. }
  destruct (list_find _ (frames s)) as [[c f]|] eqn:Hf; [|done].
  apply list_find_Some in Hf as (Hf & Hdone & _). simplify_eq.
  apply list_find_None in Hp, Hd.
  assert (∀ m, joined is_finished m (pollFunc_ s) = true) as Hjp.
  { apply joined_all. intros i x Hx.
    pose proof (Forall_lookup_1 _ _ _ _ Hp Hx) as Hfx. cbn in Hfx.
    by destruct (is_finished x). }
  assert (∀ m, joined has_run m (dispatchFunc_ s) = true) as Hjd.
  { apply joined_all. intros i x Hx.
    pose proof (Forall_lookup_1 _ _ _ _ Hd Hx) as Hfx. cbn in Hfx.
    by destruct (has_run x). }
  destruct f as [|[|] pend|m pend|m pend|[|w pend]| |]; try done; cbn; rewrite Hf; cbn;
    rewrite ?Hjp, ?Hjd; eauto.
Qed.

Lemma next_None s :
  next s = None →
  at_rest s = true ∧ forallb has_run (tasks (dispatchFunc_ s)) = true.
Proof.
  unfold next, at_rest. intros Hn.
  destruct (list_find _ (tasks (pollFunc_ s))) as [[p pc]|] eqn:Hp; [done|].
  destruct (list_find _ (tasks (dispatchFunc_ s))) as [[d j]|] eqn:Hd; [done|].
  destruct (list_find _ (frames s)) as [[c f]|] eqn:Hf; [done|].
  apply list_find_None in Hp, Hd, Hf.
  assert (∀ {A} (g : A → bool) l, Forall (λ x, g x ≠ false) l → forallb g l = true)
    as Hall.
  { intros A g l Hl. apply forallb_lookup. intros i x Hx.
    pose proof (Forall_lookup_1 _ _ _ _ Hl Hx) as Hfx. cbn in Hfx. by destruct (g x). }
  rewrite !Hall; done.
Qed.

Lemma next_returning s a : next s = Some a → returning a = true.
Proof.
  unfold next. intros Hn.
  destruct (list_find _ (tasks (pollFunc_ s))) as [[p pc]|]; [by destruct pc; simplify_eq|].
  destruct (list_find _ (tasks (dispatchFunc_ s))) as [[d j]|]; [by simplify_eq|].
  destruct (list_find _ (frames s)) as [[c f]|]; [|done].
  by destruct f; simplify_eq.
Qed.

Lemma returning_step w a s s' :
  returning a = true → step a s = Some s' → abandoned w s' = abandoned w s.
Proof.
  unfold abandoned. intros Hret Hs. revert Hret. step_cases Hs; cbn; done.
Qed.

Lemma returning_exec w sched :
  ∀ s s', forallb returning sched = true → exec sched s = Some s' →
    abandoned w s' = abandoned w s.
Proof.
  induction sched as [|a l IH]; intros s s' Hret He; simplify_eq/=; [done|].
  apply andb_prop in Hret as [Ha Hl].
  destruct (step a s) as [s1|] eqn:Hs; [|done].
  rewrite (IH _ _ Hl He). by eapply returning_step.
Qed.

Lemma returning_destroy_schedule s : forallb returning (destroy_schedule s) = true.
Proof.
  unfold destroy_schedule. cbn.
  assert (∀ l, forallb returning (run_job <$> l) = true) as Hj by (by induction l).
  assert (∀ c n, forallb returning (repeat (stop_step c) n) = true) as Hr
    by (by induction n).
  destruct (active_ s); cbn; rewrite ?forallb_app, ?Hj, ?Hr; done.
Qed.

Lemma run_down_exec n :
  ∀ s, active_ s = false → work_left s ≤ n →
    ∃ s', exec (run_down n s) s = Some s' ∧ next s' = None ∧ active_ s' = false
          ∧ watched (run_down n s) = []
          ∧ forallb returning (run_down n s) = true.
Proof.
  induction n as [|n IH]; intros s Hact Hw.
  - exists s. split_and!; try done.
    destruct (next s) as [a|] eqn:Hn; [|done].
    destruct (next_enabled _ _ Hn) as (Hint & s' & Hs).
    destruct (work_left_step _ _ _ Hact Hint Hs). lia.
  - cbn. destruct (next s) as [a|] eqn:Hn; [|by exists s].
    destruct (next_enabled _ _ Hn) as (Hint & s' & Hs). rewrite Hs.
    destruct (work_left_step _ _ _ Hact Hint Hs) as [Hlt Hact'].
    destruct (IH s' Hact' ltac:(lia)) as (s'' & He & Hn' & Hact'' & Hwd & Hret).
    exists s''. cbn. rewrite Hs. split_and!; try done.
    + by destruct a as [[]| | | | | | |].
    + by rewrite (next_returning _ _ Hn).
Qed.

(** From every reachable state the executor can be shut down, and then it
    has completed every waitable it accepted and had not lost. *)
Lemma shutdown_completes sh q sched s :
  exec sched (PollingExecutor sh q) = Some s → NoDup (watched sched) →
  ∃ s', exec (shutdown s) s = Some s'
        ∧ watched (shutdown s) = []
        ∧ forallb returning (shutdown s) = true
        ∧ settled s' = true
        ∧ ∀ w, 1 ≤ accepted w s →
            held w s' = 0 ∧ completions w s' + abandoned w s = 1.
Proof.
  intros He Hnd.
  destruct (run_down_exec (work_left (stop_locked s)) (stop_locked s) eq_refl
              (Nat.le_refl _)) as (s2 & Hrd & Hnone & Hact & Hwd & Hret).
  apply next_None in Hnone as [Hrest _].
  set (rd := run_down (work_left (stop_locked s)) (stop_locked s)) in *.
  assert (exec (call stop :: rd) s = Some s2) as He2 by done.
  assert (watched (call stop :: rd) = []) as Hw2 by done.
  assert (exec (sched ++ call stop :: rd) (PollingExecutor sh q) = Some s2) as Hall
    by (by rewrite exec_app, He).
  assert (NoDup (watched (sched ++ call stop :: rd))) as Hnd2
    by (by rewrite watched_app, Hw2, app_nil_r).
  destruct (destroy_completes _ _ _ _ Hall Hnd2 Hrest) as (Hd & Hset & Hc).
  exists (destroyed s2). unfold shutdown. fold rd. rewrite Hrd. split_and!.
  - cbn. change (stop_locked s) with (stop_locked s) in Hrd.
    rewrite exec_app, Hrd. exact Hd.
  - change (watched (rd ++ destroy_schedule s2) = []).
    by rewrite watched_app, Hwd, watched_destroy_schedule.
  - change (forallb returning (rd ++ destroy_schedule s2) = true).
    by rewrite forallb_app, Hret, returning_destroy_schedule.
  - done.
  - intros w Hacc.
    rewrite <- (returning_exec w (call stop :: rd) s s2) by done.
    apply Hc. by rewrite (accepted_unchanged _ _ _ _ _ _ w He He2 Hw2).
Qed.

(** Once the executor is inactive the threads inside it stop within
    [work_left] steps, however they are scheduled. *)
Lemma internal_bounded sched :
  ∀ s s', active_ s = false → forallb internal sched = true →
    exec sched s = Some s' →
    length sched + work_left s' ≤ work_left s ∧ active_ s' = false.
Proof.
  induction sched as [|a l IH]; intros s s' Hact Hint He; simplify_eq/=; [split; [lia|done]|].
  apply andb_prop in Hint as [Ha Hl].
  destruct (step a s) as [s1|] eqn:Hs; [|done].
  destruct (work_left_step _ _ _ Hact Ha Hs) as [Hlt Hact1].
  destruct (IH _ _ Hact1 Hl He). split; [lia|done].
Qed.

Lemma inactive_step a s s' w :
  active_ s = false → step a s = Some s' →
  active_ s' = false ∧ accepted w s' = accepted w s.
Proof.
  unfold accepted. intros Hact Hs. revert Hact.
  step_cases Hs; cbn; intros Hact; simplify_eq/=; done.
Qed.

Lemma inactive_exec sched s s' w :
  active_ s = false → exec sched s = Some s' →
  active_ s' = false ∧ accepted w s' = accepted w s.
Proof.
  revert s. induction sched as [|a l IH]; intros s Hact He; simplify_eq/=; [done|].
  destruct (step a s) as [s1|] eqn:Hs; [|done].
  destruct (inactive_step _ _ _ w Hact Hs) as [Hact1 Hacc1].
  destruct (IH _ Hact1 He) as [Hact' Hacc]. split; [done|congruence].
Qed.

(** ** The call of [stop] that stops the runners *)

Lemma stop_phase_step a s s' c :
  shutdown_once s → shutdown_once s' → active_ s = false →
  stop_phase c s → step a s = Some s' → stop_phase c s'.
Proof.
  unfold shutdown_once, runner_stops, runner_stopped.
  intros (A1 & A2 & A3 & A4 & _) (B1 & B2 & B3 & B4 & _) Hact Hph Hs.
  revert A1 A2 A3 A4 B1 B2 B3 B4 Hact Hph.
  step_cases Hs; cbn; rewrite ?sum_list_with_app; cbn;
    intros A1 A2 A3 A4 B1 B2 B3 B4 Hact (f & Hf & Hph); simplify_eq/=.
  all: unfold stop_phase, runners_stopped, runner_stops, runner_stopped in *; cbn in *.
  all: try (exists f; split; [by rewrite lookup_app_l by (by eapply lookup_lt_Some)|];
            destruct f as [|[|]| | | | |]; try done; cbn in *; lia).
  all: try (exists f; split; [done|]; destruct f as [|[|]| | | | |]; try done; cbn in *; lia).
  all: revert B1 B2 B3; cut_sums; cbn; intros B1 B2 B3.
  all: destruct (decide (c = lc)) as [->|Hne];
    [simplify_eq; eexists;
     (split; [apply list_lookup_insert_eq; by eapply lookup_lt_Some|]);
     cbn in *; try done; try lia
    |exists f; (split; [by rewrite list_lookup_insert_ne|]);
     destruct f as [|[|]| | | | |]; try done; cbn in *; try lia].
Qed.

Lemma stop_phase_exec sh q sched s sched' s' :
  exec sched (PollingExecutor sh q) = Some s → active_ s = true →
  exec (call stop :: sched') s = Some s' →
  stop_phase (length (frames s)) s'.
Proof.
  intros He Hact He'. cbn in He'.
  assert (exec (sched ++ [call stop]) (PollingExecutor sh q) = Some (stop_locked s)) as He1
    by (by rewrite exec_snoc, He).
  assert (stop_phase (length (frames s)) (stop_locked s)) as H0.
  { exists (stop_runners true (waitables_ s)). cbn.
    by rewrite lookup_snoc_last, Hact. }
  assert (active_ (stop_locked s) = false) as Hact0 by done.
  revert He1 H0 Hact0 He'. generalize (stop_locked s). generalize (sched ++ [call stop]).
  clear He Hact. intros pre s0 Hpre H0 Hact0 He'. revert pre s0 Hpre H0 Hact0 He'.
  induction sched' as [|a l IH]; intros pre s0 Hpre H0 Hact0 He'; simplify_eq/=; [done|].
  destruct (step a s0) as [s1|] eqn:Hs; [|done].
  assert (exec (pre ++ [a]) (PollingExecutor sh q) = Some s1) as Hpre1
    by (by rewrite exec_snoc, Hpre).
  apply (IH (pre ++ [a]) s1); try done.
  - destruct (reach_shutdown_ordered _ _ _ _ Hpre) as [Ha _].
    destruct (reach_shutdown_ordered _ _ _ _ Hpre1) as [Hb _].
    by apply (stop_phase_step a s0 s1).
  - by destruct (inactive_step _ _ _ 0 Hact0 Hs).
Qed.

Lemma runners_stopped_in_order sh q sched s :
  exec sched (PollingExecutor sh q) = Some s →
  runners_stopped s → stopped_in_order (log s).
Proof.
  intros He (_ & _ & _ & Hd).
  destruct (reach_shutdown_ordered _ _ _ _ He) as (_ & _ & _ & _ & _ & Ho).
  assert (ev_runner_stopped dispatch_runner ∈ log s) as H1
    by (apply stop_returns_elem; unfold runner_stopped in Hd; lia).
  apply list_elem_of_split in H1 as (l1 & r1 & E1). rewrite E1 in Ho.
  apply stops_in_order_suffix in Ho as [H2 Ho].
  apply stop_calls_elem, list_elem_of_split in H2 as (l2 & r2 & E2). rewrite E2 in Ho.
  apply stops_in_order_suffix in Ho as [H3 Ho].
  apply stop_returns_elem, list_elem_of_split in H3 as (l3 & r3 & E3). rewrite E3 in Ho.
  apply stops_in_order_suffix in Ho as [H4 Ho].
  apply stop_calls_elem, list_elem_of_split in H4 as (l4 & r4 & E4).
  exists l1, l2, l3, l4, r4. by rewrite E1, E2, E3, E4.
Qed.

(** ** A [dispatch] that throws in a drain loop *)

Lemma aborts_raised_step a s s' :
  aborts_raised s → step a s = Some s' → aborts_raised s'.
Proof.
  unfold aborts_raised. intros Hr Hs c0 e0 rest0. specialize (Hr c0 e0 rest0). revert Hr.
  step_cases Hs; cbn; intros Hr Hin;
    repeat match goal with
           | G : _ ∈ _ :: _ |- _ => apply elem_of_cons in G as [G|G]; simplify_eq
           end;
    try specialize (Hr Hin).
  all: try (rewrite lookup_app_l; [done|by eapply lookup_lt_Some]).
  all: try done.
  all: try (destruct (decide (c0 = lc)) as [->|Hne];
            [congruence|by rewrite list_lookup_insert_ne]).
  all: apply list_lookup_insert_eq; by eapply lookup_lt_Some.
Qed.

Lemma reach_aborts_raised sh q sched s :
  exec sched (PollingExecutor sh q) = Some s → aborts_raised s.
Proof.
  apply exec_invariant; [apply aborts_raised_step|].
  by intros c e rest Hin%elem_of_nil.
Qed.

Lemma abandons_elem w l :
  1 ≤ sum_list_with (abandons w) l
  ↔ ∃ c e rest, ev_drain_aborted c e rest ∈ l ∧ w ∈ rest.
Proof.
  split.
  - induction l as [|ev l IH]; cbn; [lia|]. intros Hs.
    destruct (decide (1 ≤ abandons w ev)) as [Hev|Hev].
    + destruct ev; cbn in Hev; try lia. apply occ_elem_of in Hev.
      eexists _, _, _. split; [by left|done].
    + destruct IH as (c & e & rest & Hin & Hw); [lia|].
      exists c, e, rest. split; [by right|done].
  - intros (c & e & rest & Hin & Hw%occ_elem_of).
    etrans; [|apply (sum_list_with_in _ (abandons w) _ Hin)]. done.
Qed.

Lemma stop_lost_elem c u l :
  u ∈ stop_lost c l → ∃ e rest, ev_drain_aborted c e rest ∈ l ∧ u ∈ rest.
Proof.
  induction l as [|ev l IH]; cbn; [by intros ?%elem_of_nil|].
  assert (u ∈ stop_lost c l → ∃ e rest, ev_drain_aborted c e rest ∈ ev :: l ∧ u ∈ rest)
    as Hrec.
  { intros (e & rest & Hin & Hu)%IH. exists e, rest. split; [by right|done]. }
  destruct ev; try done.
  rewrite elem_of_app. intros [Hin|Hin]; [|by apply Hrec].
  case_decide; [subst|by apply elem_of_nil in Hin].
  eexists _, _. split; [by left|done].
Qed.

Lemma returning_stop_lost c sched :
  ∀ s s', forallb returning sched = true → exec sched s = Some s' →
    stop_lost c (log s') = stop_lost c (log s).
Proof.
  induction sched as [|a l IH]; intros s s' Hret He; simplify_eq/=; [done|].
  apply andb_prop in Hret as [Ha Hl].
  destruct (step a s) as [s1|] eqn:Hs; [|done].
  rewrite (IH _ _ Hl He). clear -Ha Hs. step_cases Hs; cbn; done.
Qed.

(** A waitable that was lost behind a [dispatch] that threw is never
    dispatched. *)
Lemma lost_for_good sh q sched s w sched' s' :
  exec sched (PollingExecutor sh q) = Some s → NoDup (watched sched) →
  active_ s = false → 1 ≤ abandoned w s →
  exec sched' s = Some s' →
  held w s' = 0 ∧ completions w s' = 0.
Proof.
  intros He Hnd Hact Hab He'.
  assert (exec (sched ++ sched') (PollingExecutor sh q) = Some s') as Hall
    by (by rewrite exec_app, He).
  pose proof (reach_conserved _ _ _ _ Hall w) as Hc.
  pose proof (accepted_once _ _ _ _ w He Hnd) as Hone.
  destruct (inactive_exec _ _ _ w Hact He') as [_ Hacc].
  pose proof (counter_mono (abandons w) _ _ _ He') as Hmono.
  unfold abandoned in *. lia.
Qed.

(** A call of [stop] that has returned has dispatched the whole queue it
    took, and nothing else has. *)
Lemma stop_call_drained sh q sched s sched' s' :
  exec sched (PollingExecutor sh q) = Some s →
  exec (call stop :: sched') s = Some s' →
  NoDup (watched (sched ++ call stop :: sched')) →
  frames s' !! length (frames s) = Some returned →
  stop_lost (length (frames s)) (log s') = []
  ∧ stop_path (length (frames s)) (log s') = (λ w, (w, Some stop_error)) <$> waitables_ s
  ∧ ∀ w, w ∈ waitables_ s → completions w s' = 1 ∧ held w s' = 0.
Proof.
  intros He He' Hnd Hret.
  assert (exec (sched ++ call stop :: sched') (PollingExecutor sh q) = Some s')
    as Hall by (by rewrite exec_app, He).
  pose proof (stop_call_progress _ _ _ _ _ _ He He') as Hprog.
  assert (stop_lost (length (frames s)) (log s') = []) as Hlost.
  { destruct (stop_lost _ _) as [|u l] eqn:El; [done|].
    assert (u ∈ stop_lost (length (frames s)) (log s')) as Hu by (rewrite El; by left).
    apply stop_lost_elem in Hu as (e & rest & Hin & _).
    apply (reach_aborts_raised _ _ _ _ Hall) in Hin. congruence. }
  unfold stop_account, stop_todo in Hprog. rewrite Hret, Hlost in Hprog. cbn in Hprog.
  rewrite app_nil_r in Hprog. split_and!; [done..|]. intros w Hw.
  pose proof (accepted_once _ _ _ _ w Hall Hnd) as Hone.
  pose proof (reach_conserved _ _ _ _ Hall w) as Hc.
  assert (ev_complete w (Some stop_error) (by_stop (length (frames s))) ∈ log s') as Hin.
  { apply stop_path_elem. rewrite Hprog.
    apply list_elem_of_fmap. by exists w. }
  pose proof (sum_list_with_in _ (completes w) _ Hin) as Hle. cbn in Hle.
  unfold hit in Hle. rewrite decide_True in Hle by done.
  unfold completions in *. lia.
Qed.

(** What a call of [stop] has lost was in the queue it took, and is never
    dispatched. *)
Lemma stop_call_lost sh q sched s sched' s' w :
  exec sched (PollingExecutor sh q) = Some s →
  exec (call stop :: sched') s = Some s' →
  NoDup (watched (sched ++ call stop :: sched')) →
  w ∈ stop_lost (length (frames s)) (log s') →
  w ∈ waitables_ s
  ∧ (∃ e, frames s' !! length (frames s) = Some (raised e))
  ∧ completions w s' = 0 ∧ held w s' = 0.
Proof.
  intros He He' Hnd Hw.
  assert (exec (sched ++ call stop :: sched') (PollingExecutor sh q) = Some s')
    as Hall by (by rewrite exec_app, He).
  pose proof (stop_call_progress _ _ _ _ _ _ He He') as Hprog.
  pose proof Hw as (e & rest & Hin & Hrest)%stop_lost_elem.
  split_and!.
  - assert ((w, Some stop_error)
            ∈ (λ w, (w, Some stop_error)) <$> waitables_ s) as Hq.
    { rewrite <- Hprog. unfold stop_account. rewrite !elem_of_app. right. right.
      apply list_elem_of_fmap. by exists w. }
    apply list_elem_of_fmap in Hq as (u & Hu & Hq). by simplify_eq.
  - exists e. by apply (reach_aborts_raised _ _ _ _ Hall) in Hin.
  - pose proof (accepted_once _ _ _ _ w Hall Hnd) as Hone.
    pose proof (reach_conserved _ _ _ _ Hall w) as Hc.
    assert (1 ≤ abandoned w s') by (apply abandons_elem; eauto). lia.
  - pose proof (accepted_once _ _ _ _ w Hall Hnd) as Hone.
    pose proof (reach_conserved _ _ _ _ Hall w) as Hc.
    assert (1 ≤ abandoned w s') by (apply abandons_elem; eauto). lia.
Qed.

(** * The claims *)

(** C1.  A waitable that [watch] has accepted is, at every moment, in
    exactly one of three conditions: owned by the executor in one place and
    not yet completed; owned nowhere and completed once; or owned nowhere,
    never completed, and lost behind a [dispatch] that threw at line 157,
    which ended the call of [stop] that had taken both.  So [dispatch] is
    never invoked twice, and as long as no [dispatch] called by a drain loop
    has thrown the executor never lets go of a waitable without invoking
    it.  The argument is [nullptr] after a [wait] that returned [true], the
    exception after a [wait] that threw it, and the stop error when a
    [stop] took the waitable before any [wait] found it ready.  The
    completion is always within reach: from every state, a [stop], the
    threads inside the executor running to their end, and the destructor,
    with every [dispatch] they call returning, lead to a state in which
    every waitable not lost before has been completed once; the threads do
    end, within [work_left] steps of an inactive executor under any
    scheduling; and destroying an executor at rest completes it. *)
Theorem complete_exactly_once sh q sched s w :
  exec sched (PollingExecutor sh q) = Some s →
  NoDup (watched sched) →
  1 ≤ accepted w s →
  held w s + completions w s + abandoned w s = 1
  ∧ (forallb returning sched = true → held w s + completions w s = 1)
  ∧ (1 ≤ abandoned w s
     ↔ ∃ c e rest, ev_drain_aborted c e rest ∈ log s ∧ w ∈ rest)
  ∧ (∀ c e rest, ev_drain_aborted c e rest ∈ log s →
       frames s !! c = Some (raised e))
  ∧ (∀ error by_, ev_complete w error by_ ∈ log s →
       match by_ with
       | by_dispatch =>
           (error = None ∧ ∃ tq, ev_wait w tq (wait_returns true) ∈ log s)
           ∨ (∃ e tq, error = Some e ∧ ev_wait w tq (wait_throws e) ∈ log s)
       | by_stop _ => error = Some stop_error ∧ ready_waits w s = 0
       end)
  ∧ (∃ s', exec (shutdown s) s = Some s'
           ∧ forallb returning (shutdown s) = true
           ∧ settled s' = true ∧ held w s' = 0
           ∧ completions w s' + abandoned w s = 1)
  ∧ (active_ s = false →
     ∀ sched' s', forallb internal sched' = true → exec sched' s = Some s' →
       length sched' + work_left s' ≤ work_left s)
  ∧ (at_rest s = true →
     ∃ s', exec (destroy_schedule s) s = Some s'
           ∧ settled s' = true ∧ held w s' = 0
           ∧ completions w s' + abandoned w s = 1).
Proof.
  intros He Hnd Hacc.
  pose proof (accepted_once _ _ _ _ w He Hnd) as Hone.
  pose proof (reach_conserved _ _ _ _ He w) as Hc.
  destruct (reach_shutdown_ordered _ _ _ _ He) as (_ & _ & _ & _ & Hn & _).
  destruct (reach_errors_justified _ _ _ _ He) as (_ & _ & Hjd & Hjs).
  destruct (reach_readiness_accounted _ _ _ _ He w) as [Hr _].
  rewrite (Hn w) in Hc.
  split_and!.
  - lia.
  - intros Hret. pose proof (returning_exec w _ _ _ Hret He) as Hz.
    change (abandoned w (PollingExecutor sh q)) with 0 in Hz. lia.
  - apply abandons_elem.
  - apply (reach_aborts_raised _ _ _ _ He).
  - intros error [|c] Hin.
    + destruct (Hjd _ _ Hin) as (tq & [[|]|e] & Hw & Ho); simplify_eq/=.
      * left. eauto.
      * right. eauto.
    + split; [by eapply Hjs|].
      pose proof (sum_list_with_in _ (stop_completes w) _ Hin) as Hle. cbn in Hle.
      rewrite hit_same in Hle. lia.
  - destruct (shutdown_completes _ _ _ _ He Hnd) as (s' & Hs & _ & Hret & Hset & Hall).
    exists s'. destruct (Hall w Hacc). by split_and!.
  - intros Hact sched' s' Hint He'.
    by destruct (internal_bounded _ _ _ Hact Hint He').
  - intros Hrest.
    destruct (destroy_completes _ _ _ _ He Hnd Hrest) as (Hd & Hset & Hall).
    exists (destroyed s). destruct (Hall w Hacc). by split_and!.
Qed.

Lemma complete_exactly_once_witness :
  held 0 stopped_during_wait + completions 0 stopped_during_wait = 1.
Proof.
  assert (exec stop_during_wait (PollingExecutor true 10) = Some stopped_during_wait)
    as He by reflexivity.
  assert (NoDup (watched stop_during_wait)) as Hnd by distinct.
  assert (1 ≤ accepted 0 stopped_during_wait) as Hacc by (vm_compute; lia).
  exact (proj1 (proj2 (complete_exactly_once true 10 stop_during_wait _ 0 He Hnd Hacc))
           eq_refl).
Defined.

(** C1, as stated, fails when a [dispatch] called by the drain loop of
    [stop] throws.  Waitables 1 and 2 are in the queue when [stop] is
    called; [stop] takes both, and the [dispatch] of waitable 1 throws at
    line 157.  The exception leaves [stop], [pending] is destroyed, and in
    no continuation is [dispatch] invoked on waitable 2, which [watch] had
    accepted. *)
Lemma complete_lost_behind_throw :
  exec (two_queued ++ call stop :: stop_two_queued_throwing) (PollingExecutor true 10)
  = Some two_queued_aborted
  ∧ NoDup (watched (two_queued ++ call stop :: stop_two_queued_throwing))
  ∧ accepted 2 two_queued_aborted = 1
  ∧ settled two_queued_aborted = true
  ∧ ∀ sched' s', exec sched' two_queued_aborted = Some s' →
      held 2 s' = 0 ∧ completions 2 s' = 0.
Proof.
  assert (NoDup (watched (two_queued ++ call stop :: stop_two_queued_throwing)))
    as Hnd by distinct.
  split_and!; [reflexivity|done|reflexivity|reflexivity|].
  intros sched' s' He'.
  apply (lost_for_good true 10 (two_queued ++ call stop :: stop_two_queued_throwing)
           two_queued_aborted 2 sched' s');
    [reflexivity|exact Hnd|reflexivity|vm_compute; lia|exact He'].
Qed.

(** C2.  At any instant at most one poll loop is alive in the poll runner,
    however many threads call [watch]: counting also the calls of [watch]
    that are about to submit a loop there is at most one, and none while
    [isPollerRunning_] is clear.  [watch] commits to submitting a loop
    exactly when its critical section takes [isPollerRunning_] from [false]
    to [true]; only [watch] sets the flag, and only a poll loop clears it,
    in the critical section in which it terminates. *)
Theorem one_poll_loop sh q sched s :
  exec sched (PollingExecutor sh q) = Some s →
  alive_loops s ≤ 1
  ∧ loops s ≤ 1
  ∧ (isPollerRunning_ s = false → loops s = 0)
  ∧ (∀ w, (∃ fs, frames (watch_locked w s) = fs ++ [watch_spawn])
          ↔ active_ s = true ∧ isPollerRunning_ s = false
            ∧ isPollerRunning_ (watch_locked w s) = true)
  ∧ (∀ a s', step a s = Some s' →
       (length (tasks (pollFunc_ s)) < length (tasks (pollFunc_ s')) →
          ∃ c accept, a = spawn c accept ∧ frames s !! c = Some watch_spawn)
       ∧ (isPollerRunning_ s = false → isPollerRunning_ s' = true →
          ∃ w, a = call (watch w) ∧ frames s' = frames s ++ [watch_spawn])
       ∧ (isPollerRunning_ s = true → isPollerRunning_ s' = false →
          ∃ p, a = poll_take p ∧ tasks (pollFunc_ s) !! p = Some at_top
               ∧ tasks (pollFunc_ s') !! p = Some finished)).
Proof.
  intros He. pose proof (reach_single_poller _ _ _ _ He) as [Hle Hz].
  split_and!; try done.
  - unfold loops in Hle. lia.
  - intros w. unfold watch_locked.
    destruct (active_ s), (isPollerRunning_ s); cbn; split.
    all: try (intros [fs Hfs]; apply app_inj_tail in Hfs as [_ ?]; done).
    all: try (intros (? & ? & ?); done).
    intros _. by eexists.
  - intros a s' Hs. clear Hle Hz He. split_and!.
    + step_cases Hs; cbn; rewrite ?length_insert, ?length_app; cbn; try lia.
      all: intros _; by eexists _, _.
    + step_cases Hs; cbn; try done.
      all: intros Hf Ht; try congruence; eexists; split; reflexivity.
    + step_cases Hs; cbn; try done.
      all: intros Ht Hf; try congruence; eexists; split_and!; try done.
      all: apply list_lookup_insert_eq; by eapply lookup_lt_Some.
Qed.

Lemma one_poll_loop_witness :
  ∃ s, exec three_watchers (PollingExecutor true 10) = Some s ∧ alive_loops s ≤ 1.
Proof.
  eexists. split; [reflexivity|].
  apply (one_poll_loop true 10 three_watchers). reflexivity.
Defined.

(** C3.  [stop] has one critical section: it clears [active_] and swaps
    the whole queue into its local [pending], leaving the queue empty and
    everything else as it was.  The drain loop then calls [dispatch] itself,
    with the stop error, touching neither runner; when that [dispatch]
    throws, the exception leaves [stop] and the rest of [pending] is
    destroyed undispatched.  At any later moment the waitables this call
    has completed, followed by those it still has in [pending] and those
    it has lost, are exactly the queue it took, in order, and it has lost
    something only if an exception ended it.  So when the call has
    returned it has completed each of them once, with the stop error, and
    nothing else has completed them; and what it has lost is never
    completed. *)
Theorem stop_drains_snapshot sh q sched s :
  exec sched (PollingExecutor sh q) = Some s →
  step (call stop) s
  = Some {| shared := shared s; q_ := q_ s; waitables_ := [];
            active_ := false; isPollerRunning_ := isPollerRunning_ s;
            pollFunc_ := pollFunc_ s; dispatchFunc_ := dispatchFunc_ s;
            frames := frames s ++ [stop_runners (active_ s) (waitables_ s)];
            log := log s |}
  ∧ (∀ s1 c w pending, frames s1 !! c = Some (stop_drain (w :: pending)) →
       step (stop_step c) s1
       = Some {| shared := shared s1; q_ := q_ s1; waitables_ := waitables_ s1;
                 active_ := active_ s1; isPollerRunning_ := isPollerRunning_ s1;
                 pollFunc_ := pollFunc_ s1; dispatchFunc_ := dispatchFunc_ s1;
                 frames := <[c:=stop_drain pending]> (frames s1);
                 log := ev_complete w (Some stop_error) (by_stop c) :: log s1 |}
       ∧ ∀ e, step (drain_throws c e) s1
       = Some {| shared := shared s1; q_ := q_ s1; waitables_ := waitables_ s1;
                 active_ := active_ s1; isPollerRunning_ := isPollerRunning_ s1;
                 pollFunc_ := pollFunc_ s1; dispatchFunc_ := dispatchFunc_ s1;
                 frames := <[c:=raised e]> (frames s1);
                 log := ev_drain_aborted c e pending
                        :: ev_complete w (Some stop_error) (by_stop c) :: log s1 |})
  ∧ ∀ sched' s',
      exec (call stop :: sched') s = Some s' →
      stop_path (length (frames s)) (log s') ++ stop_todo (length (frames s)) s'
        ++ ((λ w, (w, Some stop_error)) <$> stop_lost (length (frames s)) (log s'))
      = (λ w, (w, Some stop_error)) <$> waitables_ s
      ∧ (forallb returning sched' = true → stop_lost (length (frames s)) (log s') = [])
      ∧ (NoDup (watched (sched ++ call stop :: sched')) →
         NoDup (waitables_ s)
         ∧ (frames s' !! length (frames s) = Some returned →
            stop_path (length (frames s)) (log s')
            = (λ w, (w, Some stop_error)) <$> waitables_ s
            ∧ ∀ w, w ∈ waitables_ s → completions w s' = 1 ∧ held w s' = 0)
         ∧ (∀ w, w ∈ stop_lost (length (frames s)) (log s') →
            w ∈ waitables_ s
            ∧ (∃ e, frames s' !! length (frames s) = Some (raised e))
            ∧ completions w s' = 0 ∧ held w s' = 0)).
Proof.
  intros He. split_and!; [done|..].
  { intros s1 c w pending Hf. cbn. by rewrite Hf. }
  intros sched' s' He'.
  pose proof (stop_call_progress _ _ _ _ _ _ He He') as Hprog.
  split_and!; [done| |].
  { intros Hret. cbn in He'.
    rewrite (returning_stop_lost _ _ _ _ Hret He'). cbn.
    by destruct (reach_stop_path_fresh _ _ _ _ He (length (frames s))). }
  intros Hnd.
  assert (NoDup (watched sched)) as Hnd0.
  { rewrite watched_app in Hnd. by apply NoDup_app in Hnd as [? _]. }
  split_and!; [by eapply queue_NoDup| |].
  - intros Hret. by destruct (stop_call_drained _ _ _ _ _ _ He He' Hnd Hret) as (_ & ? & ?).
  - intros w Hw. by eapply stop_call_lost.
Qed.

Lemma stop_drains_snapshot_witness :
  exec (call stop :: stop_two_queued) two_queued_state = Some two_queued_stopped
  ∧ stop_path 3 (log two_queued_stopped) = [(1, Some stop_error); (2, Some stop_error)]
  ∧ completions 1 two_queued_stopped = 1 ∧ completions 2 two_queued_stopped = 1.
Proof.
  assert (exec two_queued (PollingExecutor true 10) = Some two_queued_state)
    as He by reflexivity.
  destruct (stop_drains_snapshot true 10 two_queued _ He) as (_ & _ & H).
  destruct (H stop_two_queued two_queued_stopped eq_refl) as (_ & _ & H').
  destruct H' as (_ & H' & _); [distinct|].
  destruct H' as [Hp Hc]; [reflexivity|].
  split_and!; [reflexivity|exact Hp|apply Hc|apply Hc].
  - by left.
  - right. by left.
Defined.

(** C3, as stated, fails when a [dispatch] of the drain loop throws.  The
    call of [stop] takes the queue [[1; 2]]; the [dispatch] of waitable 1
    throws at line 157 and ends the call.  Waitable 2 was in the snapshot,
    the call is over, and [dispatch] is not invoked on waitable 2 then or
    in any continuation: it is lost across the transition. *)
Lemma stop_loses_behind_throw :
  waitables_ two_queued_state = [1; 2]
  ∧ exec (call stop :: stop_two_queued_throwing) two_queued_state
    = Some two_queued_aborted
  ∧ frames two_queued_aborted !! length (frames two_queued_state)
    = Some (raised (other_exception 9))
  ∧ stop_path (length (frames two_queued_state)) (log two_queued_aborted)
    = [(1, Some stop_error)]
  ∧ ∀ sched' s', exec sched' two_queued_aborted = Some s' →
      held 2 s' = 0 ∧ completions 2 s' = 0.
Proof.
  assert (NoDup (watched (two_queued ++ call stop :: stop_two_queued_throwing)))
    as Hnd by distinct.
  split_and!; [reflexivity..|].
  intros sched' s' He'.
  apply (lost_for_good true 10 (two_queued ++ call stop :: stop_two_queued_throwing)
           two_queued_aborted 2 sched' s');
    [reflexivity|exact Hnd|reflexivity|vm_compute; lia|exact He'].
Qed.

(** C4.  A waitable passed to [watch] once the executor is inactive is
    not put into the queue: the call returns with every member as it was,
    and in no continuation does the executor own the waitable or invoke its
    [dispatch]. *)
Theorem watch_after_stop_discards sh q sched s w :
  exec sched (PollingExecutor sh q) = Some s →
  active_ s = false →
  step (call (watch w)) s
  = Some {| shared := shared s; q_ := q_ s; waitables_ := waitables_ s;
            active_ := active_ s; isPollerRunning_ := isPollerRunning_ s;
            pollFunc_ := pollFunc_ s; dispatchFunc_ := dispatchFunc_ s;
            frames := frames s ++ [returned];
            log := ev_discarded w :: log s |}
  ∧ ∀ sched' s',
      NoDup (watched (sched ++ call (watch w) :: sched')) →
      exec (call (watch w) :: sched') s = Some s' →
      held w s' = 0 ∧ completions w s' = 0
      ∧ ∀ error by_, ev_complete w error by_ ∉ log s'.
Proof.
  intros He Hact. split.
  { cbn. unfold watch_locked. by rewrite Hact. }
  intros sched' s' Hnd He'.
  assert (exec (sched ++ call (watch w) :: sched') (PollingExecutor sh q) = Some s')
    as Hall by (by rewrite exec_app, He).
  pose proof (reach_watch_accounting _ _ _ _ w Hall) as Hacc.
  pose proof (occ_NoDup w _ Hnd) as Hocc.
  pose proof (reach_conserved _ _ _ _ Hall w) as Hcons.
  assert (1 ≤ discarded w s') as Hdis.
  { cbn in He'. etrans; [|apply (counter_mono (discards w) _ _ _ He')].
    unfold watch_locked. rewrite Hact. cbn. unfold hit. rewrite decide_True by done. lia. }
  assert (completions w s' = 0) as Hz by lia.
  split_and!; [lia|done|].
  intros error by_ Hin.
  pose proof (sum_list_with_in _ (completes w) _ Hin) as Hle.
  unfold completions in Hz. cbn in Hle. unfold hit in Hle.
  rewrite decide_True in Hle by done. lia.
Qed.

Lemma watch_after_stop_discards_witness :
  ∃ s', exec [call (watch 1); call stop; stop_step 3; stop_step 3] stopped_state = Some s'
        ∧ held 1 s' = 0 ∧ completions 1 s' = 0.
Proof.
  assert (exec watch_after_stop (PollingExecutor true 10) = Some stopped_state)
    as He by reflexivity.
  pose proof (watch_after_stop_discards true 10 watch_after_stop _ 1 He eq_refl)
    as [_ H].
  assert (NoDup (watched (watch_after_stop
                          ++ [call (watch 1); call stop; stop_step 3; stop_step 3])))
    as Hnd by distinct.
  destruct (H [call stop; stop_step 3; stop_step 3] _ Hnd eq_refl) as (H1 & H2 & _).
  eexists. split_and!; [reflexivity|exact H1|exact H2].
Defined.

(** C5.  A second call of [stop] can find the queue of the inactive
    executor not empty.  Here the first [stop] ran while the poll loop was
    inside [wait]; the [wait] reported [false] and line 122 pushed the
    waitable back into the queue of the inactive executor (unlike line 77 of
    [watch], line 122 does not look at [active_]).  The first [stop] has
    returned without completing the waitable; the second one leaves both
    runners alone but invokes [dispatch] on it. *)
Theorem second_stop_completes_stranded :
  exec stop_during_unready_wait (PollingExecutor true 10) = Some stranded_state
  ∧ active_ stranded_state = false
  ∧ at_rest stranded_state = true
  ∧ waitables_ stranded_state = [0]
  ∧ completions 0 stranded_state = 0
  ∧ ∃ s', exec [call stop; stop_step 2; stop_step 2; stop_step 2] stranded_state = Some s'
          ∧ log s' = ev_complete 0 (Some stop_error) (by_stop 2) :: log stranded_state
          ∧ pollFunc_ s' = pollFunc_ stranded_state
          ∧ dispatchFunc_ s' = dispatchFunc_ stranded_state.
Proof.
  split_and!; try reflexivity. eexists. split_and!; reflexivity.
Qed.

(** C6.  When [wait] throws on the waitable a poll loop has popped, the
    loop keeps the exception and treats the waitable as ready, hands it to
    the dispatch runner, and the job invokes [dispatch] with exactly that
    exception.  The loop is back at its head afterwards, with the queue,
    the flags and the other loops as they were. *)
Theorem wait_error_forwarded sh q sched s p w e accept :
  exec sched (PollingExecutor sh q) = Some s →
  tasks (pollFunc_ s) !! p = Some (holding w) →
  ∃ s1 s2 s3,
    step (poll_wait p (wait_throws e)) s = Some s1
    ∧ step (poll_route p accept) s1 = Some s2
    ∧ step (run_job (length (tasks (dispatchFunc_ s)))) s2 = Some s3
    ∧ tasks (pollFunc_ s1) !! p = Some (waited w true (Some e))
    ∧ tasks (dispatchFunc_ s2) = tasks (dispatchFunc_ s) ++ [Some (w, Some e)]
    ∧ tasks (pollFunc_ s2) = <[p:=at_top]> (tasks (pollFunc_ s))
    ∧ waitables_ s3 = waitables_ s
    ∧ active_ s2 = active_ s
    ∧ isPollerRunning_ s2 = isPollerRunning_ s
    ∧ frames s2 = frames s
    ∧ log s3 = ev_complete w (Some e) by_dispatch :: ev_handoff w (Some e)
               :: ev_wait w (q_ s) (wait_throws e) :: log s.
Proof.
  intros He Hp.
  destruct (reach_shutdown_ordered _ _ _ _ He) as (_ & _ & Hidle & _).
  assert (stop_called (dispatchFunc_ s) = false) as Hds.
  { destruct (stop_called (dispatchFunc_ s)) eqn:E; [|done].
    by apply (Hidle E) in Hp. }
  pose proof (lookup_lt_Some _ _ _ Hp) as Hlt.
  exists (poll_try_wait p w (wait_throws e) s),
    (poll_requeue_or_dispatch p w true (Some e) accept
       (poll_try_wait p w (wait_throws e) s)),
    (dispatch_job (length (tasks (dispatchFunc_ s))) w (Some e)
       (poll_requeue_or_dispatch p w true (Some e) accept
          (poll_try_wait p w (wait_throws e) s))).
  destruct s as [ssh tq ws act run [pts pstop] [jobs dstop] fs lg]; cbn in *. subst dstop.
  unfold poll_requeue_or_dispatch, poll_try_wait, dispatch_job, submit, update_task. cbn.
  rewrite Hp, !list_lookup_insert_eq, lookup_snoc_last, list_insert_insert_eq by done.
  by split_and!.
Qed.

Lemma wait_error_forwarded_witness :
  ∃ s', exec [poll_wait 0 (wait_throws (other_exception 7)); poll_route 0 true;
              run_job 0] polling_state = Some s'
        ∧ ev_complete 0 (Some (other_exception 7)) by_dispatch ∈ log s'
        ∧ waitables_ s' = [1].
Proof.
  assert (exec throwing_wait (PollingExecutor true 10) = Some polling_state)
    as He by reflexivity.
  destruct (wait_error_forwarded true 10 throwing_wait _ 0 0 (other_exception 7) true
              He eq_refl)
    as (s1 & s2 & s3 & H1 & H2 & H3 & _ & _ & _ & Hq & _ & _ & _ & Hlog).
  exists s3. split_and!.
  - change (length (tasks (dispatchFunc_ polling_state))) with 0 in H3.
    cbn [exec]. by rewrite H1, H2, H3.
  - rewrite Hlog. by left.
  - by rewrite Hq.
Defined.

(** C7.  When [wait] reports [false], line 122 puts the waitable at the
    back of the queue and the loop goes on.  So the polling is round robin:
    if the same waitable is in the hand of a loop once more, about to be
    polled a second time, then every waitable that was in the queue when it
    was popped for the first poll has been polled in between. *)
Theorem round_robin sh q sched1 sched2 s1 s2 p r w :
  exec sched1 (PollingExecutor sh q) = Some s1 →
  tasks (pollFunc_ s1) !! p = Some (holding w) →
  exec (poll_wait p r :: sched2) s1 = Some s2 →
  NoDup (watched (sched1 ++ poll_wait p r :: sched2)) →
  (∀ accept, r = wait_returns false →
     ∃ s', exec [poll_wait p r; poll_route p accept] s1 = Some s'
           ∧ waitables_ s' = waitables_ s1 ++ [w]
           ∧ tasks (pollFunc_ s') = <[p:=at_top]> (tasks (pollFunc_ s1))
           ∧ log s' = ev_wait w (q_ s1) r :: log s1)
  ∧ (∀ p', tasks (pollFunc_ s2) !! p' = Some (holding w) →
     ∀ u, u ∈ waitables_ s1 → checked_since (log s1) (log s2) u).
Proof.
  intros He1 Hp He2 Hnd.
  pose proof (lookup_lt_Some _ _ _ Hp) as Hlt.
  split.
  { intros accept ->. cbn. rewrite Hp. cbn.
    rewrite list_lookup_insert_eq by done. eexists. split; [reflexivity|]. cbn.
    by rewrite list_insert_insert_eq. }
  intros p' Hp'.
  assert (NoDup (watched sched1)) as Hnd1.
  { rewrite watched_app in Hnd. by apply NoDup_app in Hnd as [? _]. }
  pose proof (held_once _ _ _ _ w He1 Hnd1) as Hh1.
  cbn in He2. rewrite Hp in He2.
  assert (exec (sched1 ++ [poll_wait p r]) (PollingExecutor sh q)
          = Some (poll_try_wait p w r s1)) as He1'.
  { rewrite exec_snoc, He1. cbn. by rewrite Hp. }
  assert (exec (sched1 ++ poll_wait p r :: sched2) (PollingExecutor sh q) = Some s2)
    as Hall by (rewrite exec_app, He1; cbn; by rewrite Hp).
  assert (round_robin_inv w (waitables_ s1) (log s1) (poll_try_wait p w r s1)) as Hinv.
  { unfold round_robin_inv, ready_waits. cbn.
    destruct r as [[|]|e]; cbn.
    - right. right. left. rewrite hit_same. lia.
    - destruct (active_ s1) eqn:Hact.
      + do 3 right. left. split; [done|]. split.
        * exists p. by apply list_lookup_insert_eq.
        * done.
      + right. left. split; [done|]. intros j Hj.
        apply list_lookup_insert_Some in Hj as [(? & ? & ?)|[Hne Hj]]; [done|].
        assert (sum_list_with (poll_holds w) (tasks (pollFunc_ s1)) ≤ 1) as Hp1
          by (unfold held in Hh1; lia).
        eapply (two_holders w _ p j _ _ Hp1 Hne Hp Hj); cbn; apply hit_same.
    - right. right. left. rewrite hit_same. lia. }
  assert (round_robin_inv w (waitables_ s1) (log s1) s2) as Hinv2.
  { eapply (round_robin_exec sh q w _ _ sched2 (sched1 ++ [poll_wait p r])); try done.
    - by rewrite <- app_assoc.
    - intros u. cbn. lia. }
  pose proof (accepted_once _ _ _ _ w Hall Hnd) as Hone.
  destruct (reach_readiness_accounted _ _ _ _ Hall w) as [Hr _].
  pose proof (sum_list_with_lookup (unready w) _ _ _ Hp') as Hun. cbn in Hun.
  rewrite hit_same in Hun.
  destruct Hinv2 as [Hc|[[_ Hno]|[Hgone|[(_ & [i Hi] & _)|(_ & l1 & l2 & Hq & _)]]]].
  - done.
  - by apply Hno in Hp'.
  - lia.
  - exfalso. assert (i ≠ p') by (intros ->; congruence).
    pose proof (sum_list_with_lookup2 (unready w) _ _ _ _ _ H Hi Hp') as H2.
    cbn in H2. rewrite hit_same in H2. lia.
  - exfalso. rewrite Hq, occ_app in Hr. unfold occ at 2 in Hr. cbn in Hr.
    rewrite hit_same in Hr. lia.
Qed.

Lemma round_robin_witness :
  checked_since (log first_poll_state) (log second_poll_state) 1
  ∧ checked_since (log first_poll_state) (log second_poll_state) 2.
Proof.
  assert (exec first_poll (PollingExecutor true 10) = Some first_poll_state)
    as He by reflexivity.
  assert (NoDup (watched (first_poll ++ poll_wait 0 (wait_returns false) :: one_round)))
    as Hnd by distinct.
  destruct (round_robin true 10 first_poll one_round first_poll_state second_poll_state
              0 (wait_returns false) 0 He eq_refl eq_refl Hnd) as [_ H].
  split; apply (H 0 eq_refl).
  - by left.
  - right. by left.
Defined.

(** C7, as stated, fails for a waitable that arrives late.  Waitable 0 is
    polled once and goes back into the queue; waitable 1 is then passed to
    [watch] and queued behind it.  The loop pops waitable 0 for its second
    poll while waitable 1 is pending in the queue and has not been polled. *)
Lemma round_robin_late_arrival :
  ¬ (∀ sched s p w,
       exec sched (PollingExecutor true 10) = Some s →
       NoDup (watched sched) →
       tasks (pollFunc_ s) !! p = Some (holding w) →
       1 ≤ sum_list_with (checks w) (log s) →
       ∀ u, u ∈ waitables_ s → 1 ≤ sum_list_with (checks u) (log s)).
Proof.
  intros H.
  assert (NoDup (watched late_arrival)) as Hnd by distinct.
  assert (1 ≤ sum_list_with (checks 1) (log late_arrival_state)) as Hc.
  { apply (H late_arrival late_arrival_state 0 0 eq_refl Hnd eq_refl).
    - vm_compute. lia.
    - by left. }
  vm_compute in Hc. lia.
Qed.

(** C8.  The destructor is a call of [stop].  Run on an executor that is
    still active (and at rest, as it is when the last owner lets go of it),
    it calls the [stop] of the poll runner first and that of the dispatch
    runner second, each once, and then invokes [dispatch] with the stop
    error on the waitables that were in the queue, in order, as a call of
    [stop] does.  With every such [dispatch] returning, each of them is
    completed once; under any scheduling, once the destructor has returned
    each has been completed once, and a waitable it has lost, behind a
    [dispatch] that threw, is never completed. *)
Theorem destructor_stops sh q sched s :
  exec sched (PollingExecutor sh q) = Some s →
  NoDup (watched sched) → at_rest s = true → active_ s = true →
  (∀ sched', exec (call destroy :: sched') s = exec (call stop :: sched') s)
  ∧ (∃ s',
      exec (destroy_schedule s) s = Some s'
      ∧ forallb returning (destroy_schedule s) = true
      ∧ log s' = drain_events (length (frames s)) (waitables_ s)
                 ++ ev_runner_stopped dispatch_runner
                 :: job_events (tasks (dispatchFunc_ s))
                 ++ ev_runner_stop dispatch_runner :: ev_runner_stopped poll_runner
                 :: ev_runner_stop poll_runner :: log s
      ∧ runner_stops poll_runner s' = 1 ∧ runner_stops dispatch_runner s' = 1
      ∧ stop_called (pollFunc_ s') = true ∧ stop_called (dispatchFunc_ s') = true
      ∧ active_ s' = false ∧ settled s' = true
      ∧ stop_path (length (frames s)) (log s')
        = (λ w, (w, Some stop_error)) <$> waitables_ s
      ∧ ∀ w, w ∈ waitables_ s → completions w s' = 1)
  ∧ ∀ sched' s',
      exec (call destroy :: sched') s = Some s' →
      NoDup (watched (sched ++ call destroy :: sched')) →
      (∀ f, frames s' !! length (frames s) = Some f → frame_done f = true →
         runner_stops poll_runner s' = 1 ∧ runner_stops dispatch_runner s' = 1
         ∧ runner_stopped poll_runner s' = 1 ∧ runner_stopped dispatch_runner s' = 1)
      ∧ (frames s' !! length (frames s) = Some returned →
         stop_path (length (frames s)) (log s')
         = (λ w, (w, Some stop_error)) <$> waitables_ s
         ∧ ∀ w, w ∈ waitables_ s → completions w s' = 1 ∧ held w s' = 0)
      ∧ (∀ w, w ∈ stop_lost (length (frames s)) (log s') →
         w ∈ waitables_ s
         ∧ (∃ e, frames s' !! length (frames s) = Some (raised e))
         ∧ completions w s' = 0 ∧ held w s' = 0).
Proof.
  intros He Hnd Hrest Hact. split_and!; [done| |].
  - destruct (destroy_completes _ _ _ _ He Hnd Hrest) as (Hd & Hset & Hall).
    exists (destroyed s).
    assert (exec (sched ++ destroy_schedule s) (PollingExecutor sh q) = Some (destroyed s))
      as Hreach by (by rewrite exec_app, He).
    destruct (reach_shutdown_ordered _ _ _ _ Hreach)
      as ((H1 & H2 & _ & _ & H5 & H6) & _).
    assert (active_ (destroyed s) = false) as Hact'
      by (unfold destroyed; by rewrite Hact).
    pose proof Hset as [[[Hf _]%andb_prop _]%andb_prop _]%andb_prop.
    rewrite Hact' in H1. cbn in H1.
    rewrite (sum_list_with_zero before_poll_stop frame_done) in H1
      by (done || by intros []).
    rewrite (sum_list_with_zero in_poll_stop frame_done) in H2
      by (done || by intros []).
    assert (exec (call stop :: tail (destroy_schedule s)) s = Some (destroyed s)) as Hd'
      by exact Hd.
    assert (NoDup (watched (sched ++ call stop :: tail (destroy_schedule s)))) as Hnd'.
    { rewrite watched_app.
      change (watched (call stop :: tail (destroy_schedule s)))
        with (watched (destroy_schedule s)).
      by rewrite watched_destroy_schedule, app_nil_r. }
    assert (frames (destroyed s) !! length (frames s) = Some returned) as Hret
      by (unfold destroyed; rewrite Hact; cbn; by rewrite lookup_snoc_last).
    destruct (stop_call_drained _ _ _ _ _ _ He Hd' Hnd' Hret) as (_ & Hpath & Hcompl).
    split_and!; try done; try lia.
    + apply returning_destroy_schedule.
    + unfold destroyed. by rewrite Hact.
    + unfold destroyed. by rewrite Hact.
    + unfold destroyed. by rewrite Hact.
    + intros w Hw. by apply Hcompl.
  - intros sched' s' He' Hnd'.
    assert (exec (call stop :: sched') s = Some s') as Hs' by exact He'.
    rewrite watched_app in Hnd'.
    change (watched (call destroy :: sched')) with (watched (call stop :: sched')) in Hnd'.
    rewrite <- watched_app in Hnd'.
    assert (exec (sched ++ call stop :: sched') (PollingExecutor sh q) = Some s')
      as Hall by (by rewrite exec_app, He).
    split_and!.
    + intros f Hf Hdone.
      destruct (stop_phase_exec _ _ _ _ _ _ He Hact Hs') as (f' & Hf' & Hph).
      simplify_eq. destruct f as [|[|]| | | | |]; try done.
      all: by destruct Hph as (? & ? & ? & ?).
    + intros Hret. by destruct (stop_call_drained _ _ _ _ _ _ He Hs' Hnd' Hret) as (_ & ? & ?).
    + intros w Hw. by eapply stop_call_lost.
Qed.

Lemma destructor_stops_witness :
  ∃ s', exec (destroy_schedule unshared_state) unshared_state = Some s'
        ∧ stop_path 2 (log s') = [(5, Some stop_error); (6, Some stop_error)]
        ∧ completions 5 s' = 1 ∧ completions 6 s' = 1.
Proof.
  assert (exec unshared_watches (PollingExecutor false 10) = Some unshared_state)
    as He by reflexivity.
  assert (NoDup (watched unshared_watches)) as Hnd by distinct.
  destruct (destructor_stops false 10 unshared_watches _ He Hnd eq_refl eq_refl)
    as (_ & (s' & Hd & _ & _ & _ & _ & _ & _ & _ & _ & Hp & Hc) & _).
  exists s'. split_and!; [exact Hd|exact Hp|apply Hc|apply Hc].
  - by left.
  - right. by left.
Defined.

(** C8, as stated, fails when a [dispatch] of the destructor's drain loop
    throws.  The executor is active and at rest with waitables 5 and 6 in
    its queue; the destructor stops both runners and takes the queue, and
    the [dispatch] of waitable 5 throws at line 157.  Waitable 6 was still
    in the queue when the destructor ran, and [dispatch] is never invoked
    on it. *)
Lemma destructor_loses_behind_throw :
  active_ unshared_state = true ∧ at_rest unshared_state = true
  ∧ waitables_ unshared_state = [5; 6]
  ∧ exec destroy_throwing unshared_state = Some unshared_aborted
  ∧ runner_stops poll_runner unshared_aborted = 1
  ∧ runner_stops dispatch_runner unshared_aborted = 1
  ∧ settled unshared_aborted = true
  ∧ ∀ sched' s', exec sched' unshared_aborted = Some s' →
      held 6 s' = 0 ∧ completions 6 s' = 0.
Proof.
  assert (NoDup (watched (unshared_watches ++ destroy_throwing))) as Hnd by distinct.
  split_and!; [reflexivity..|].
  intros sched' s' He'.
  apply (lost_for_good false 10 (unshared_watches ++ destroy_throwing)
           unshared_aborted 6 sched' s');
    [reflexivity|exact Hnd|reflexivity|vm_compute; lia|exact He'].
Qed.

(** C9.  The call of [stop] that finds the executor active calls the
    [stop] of the poll runner (line 150), waits in it until the loops
    submitted before have finished, and only then calls the [stop] of the
    dispatch runner (line 151): while it is at line 150 the [stop] of the
    dispatch runner has not been called, and once it is past line 151,
    whether it is draining, has returned or was left by an exception, both
    runners have been taken through their [stop], once each, the poll
    runner first.  In the log the call on the dispatch runner comes after
    the call on the poll runner and after its return.  From that call on no
    poll loop owns a waitable, so a loop that reaches line 129 always finds
    the dispatch runner running and its job is accepted; no job is ever
    refused, and once the [stop] of the dispatch runner has returned every
    job has run: every waitable that was handed over has been completed. *)
Theorem poll_runner_stopped_first sh q sched s :
  exec sched (PollingExecutor sh q) = Some s →
  (∀ l1 l2, log s = l1 ++ ev_runner_stop dispatch_runner :: l2 →
     ev_runner_stopped poll_runner ∈ l2 ∧ ev_runner_stop poll_runner ∈ l2)
  ∧ (∀ w, ev_job_dropped w ∉ log s)
  ∧ (stop_called (dispatchFunc_ s) = true →
     ∀ p pc, tasks (pollFunc_ s) !! p = Some pc → idle pc = true)
  ∧ (∀ p w error accept, tasks (pollFunc_ s) !! p = Some (waited w true error) →
     ∃ s', step (poll_route p accept) s = Some s'
           ∧ tasks (dispatchFunc_ s') = tasks (dispatchFunc_ s) ++ [Some (w, error)])
  ∧ (ev_runner_stopped dispatch_runner ∈ log s →
     (∀ d j, tasks (dispatchFunc_ s) !! d = Some j → j = None)
     ∧ ∀ w error, ev_handoff w error ∈ log s → ev_complete w error by_dispatch ∈ log s)
  ∧ (∀ c pending, frames s !! c = Some (stop_runners true pending) →
     stop_called (pollFunc_ s) = false ∧ stop_called (dispatchFunc_ s) = false
     ∧ step (stop_step c) s
       = Some {| shared := shared s; q_ := q_ s; waitables_ := waitables_ s;
                 active_ := active_ s; isPollerRunning_ := isPollerRunning_ s;
                 pollFunc_ := {| tasks := tasks (pollFunc_ s); stop_called := true |};
                 dispatchFunc_ := dispatchFunc_ s;
                 frames := <[c:=stop_join_poll (length (tasks (pollFunc_ s))) pending]>
                             (frames s);
                 log := ev_runner_stop poll_runner :: log s |})
  ∧ (∀ c mark pending, frames s !! c = Some (stop_join_poll mark pending) →
     stop_called (pollFunc_ s) = true ∧ stop_called (dispatchFunc_ s) = false
     ∧ runner_stops poll_runner s = 1 ∧ runner_stops dispatch_runner s = 0
     ∧ step (stop_step c) s
       = if forallb is_finished (take mark (tasks (pollFunc_ s))) then
           Some {| shared := shared s; q_ := q_ s; waitables_ := waitables_ s;
                   active_ := active_ s; isPollerRunning_ := isPollerRunning_ s;
                   pollFunc_ := pollFunc_ s;
                   dispatchFunc_ := {| tasks := tasks (dispatchFunc_ s);
                                       stop_called := true |};
                   frames := <[c:=stop_join_dispatch (length (tasks (dispatchFunc_ s)))
                                    pending]> (frames s);
                   log := ev_runner_stop dispatch_runner
                          :: ev_runner_stopped poll_runner :: log s |}
         else None)
  ∧ (active_ s = true →
     ∀ sched' s', exec (call stop :: sched') s = Some s' →
     ∀ f, frames s' !! length (frames s) = Some f →
       match f with
       | stop_runners _ _ =>
           runner_stops poll_runner s' = 0 ∧ runner_stops dispatch_runner s' = 0
       | stop_join_poll _ _ =>
           runner_stops poll_runner s' = 1 ∧ runner_stopped poll_runner s' = 0
           ∧ runner_stops dispatch_runner s' = 0
       | stop_join_dispatch _ _ =>
           runner_stops poll_runner s' = 1 ∧ runner_stopped poll_runner s' = 1
           ∧ runner_stops dispatch_runner s' = 1
           ∧ runner_stopped dispatch_runner s' = 0
       | stop_drain _ | returned | raised _ =>
           runners_stopped s' ∧ stopped_in_order (log s')
       | watch_spawn => False
       end).
Proof.
  intros He.
  destruct (reach_shutdown_ordered _ _ _ _ He) as (Hon & Hl & Hidle & [_ Hj] & Hn & Ho).
  pose proof (reach_handoffs_tracked _ _ _ _ He) as Hh.
  split_and!.
  - intros l1 l2 Hlog. rewrite Hlog in Ho. apply stops_in_order_suffix in Ho as [Hr Ho].
    apply stop_returns_elem in Hr. split; [done|].
    apply list_elem_of_split in Hr as (l3 & l4 & ->).
    apply stops_in_order_suffix in Ho as [Hc _]. apply stop_calls_elem in Hc.
    apply elem_of_app. right. by right.
  - intros w Hin. specialize (Hn w). unfold dropped in Hn.
    pose proof (sum_list_with_in _ (drops w) _ Hin) as Hle. cbn in Hle.
    unfold hit in Hle. rewrite decide_True in Hle by done. lia.
  - done.
  - intros p w error accept Hp.
    assert (stop_called (dispatchFunc_ s) = false) as Hds.
    { destruct (stop_called (dispatchFunc_ s)) eqn:E; [|done]. by apply (Hidle E) in Hp. }
    cbn. rewrite Hp. eexists. split; [reflexivity|].
    unfold poll_requeue_or_dispatch, submit. cbn. by rewrite Hds.
  - intros Hin.
    assert (1 ≤ runner_stopped dispatch_runner s) as Hret
      by apply (sum_list_with_in _ (stop_returns dispatch_runner) _ Hin).
    assert (∀ d j, tasks (dispatchFunc_ s) !! d = Some j → j = None) as Hrun.
    { intros d j Hd. apply (Hj Hret) in Hd. by destruct j. }
    split; [done|]. intros w error Hho.
    destruct (Hh _ _ Hho) as [[d Hd]|Hc]; [|done]. by apply Hrun in Hd.
  - intros c pending Hf.
    destruct Hon as (H1 & H2 & H3 & H4 & H5 & H6).
    pose proof (sum_list_with_lookup before_poll_stop _ _ _ Hf) as Hb. cbn in Hb.
    assert (stop_called (pollFunc_ s) = false ∧ stop_called (dispatchFunc_ s) = false)
      as [Hps Hds].
    { unfold flag in *.
      destruct (active_ s), (stop_called (pollFunc_ s)), (stop_called (dispatchFunc_ s));
        cbn in *; (done || lia). }
    split_and!; [done..|]. cbn. by rewrite Hf.
  - intros c mark pending Hf.
    destruct Hon as (H1 & H2 & H3 & H4 & H5 & H6).
    pose proof (sum_list_with_lookup in_poll_stop _ _ _ Hf) as Hb. cbn in Hb.
    assert (stop_called (pollFunc_ s) = true ∧ stop_called (dispatchFunc_ s) = false
            ∧ runner_stops poll_runner s = 1 ∧ runner_stops dispatch_runner s = 0)
      as (Hps & Hds & Hp1 & Hd0).
    { unfold flag in *.
      destruct (active_ s), (stop_called (pollFunc_ s)), (stop_called (dispatchFunc_ s));
        cbn in *; split_and!; (done || lia). }
    split_and!; [done..|]. cbn. by rewrite Hf.
  - intros Hact sched' s' He' f Hf.
    assert (exec (sched ++ call stop :: sched') (PollingExecutor sh q) = Some s')
      as Hall by (by rewrite exec_app, He).
    destruct (stop_phase_exec _ _ _ _ _ _ He Hact He') as (f' & Hf' & Hph).
    destruct (reach_shutdown_ordered _ _ _ _ Hall) as ((H1 & H2 & H3 & H4 & _) & _).
    assert (active_ s' = false) as Hact'.
    { cbn in He'. by destruct (inactive_exec _ _ _ 0 (eq_refl : active_ (stop_locked s) = false) He'). }
    rewrite Hact' in H1. cbn in H1. simplify_eq.
    destruct f as [|[|] pend|mark pend|mark pend|pend| |]; try done.
    + pose proof (sum_list_with_lookup before_poll_stop _ _ _ Hf) as Hb. cbn in Hb. lia.
    + pose proof (sum_list_with_lookup in_poll_stop _ _ _ Hf) as Hb. cbn in Hb. lia.
    + pose proof (sum_list_with_lookup in_dispatch_stop _ _ _ Hf) as Hb. cbn in Hb. lia.
    + split; [done|]. by eapply runners_stopped_in_order.
    + split; [done|]. by eapply runners_stopped_in_order.
    + split; [done|]. by eapply runners_stopped_in_order.
Qed.

Lemma poll_runner_stopped_first_witness :
  runners_stopped stopped_during_wait ∧ stopped_in_order (log stopped_during_wait).
Proof.
  destruct (poll_runner_stopped_first true 10 in_wait in_wait_state eq_refl)
    as (_ & _ & _ & _ & _ & _ & _ & H).
  exact (H eq_refl stop_in_wait stopped_during_wait eq_refl returned eq_refl).
Defined.

(** C10.  [watch] takes its [shared_from_this] after its critical section:
    on an object that no [shared_ptr] manages, the call that finds no loop
    running has already put the waitable into the queue and set
    [isPollerRunning_] when [shared_from_this] throws, and the poll runner
    is never called.  The waitable stays in the queue, and no loop is ever
    submitted and no waitable ever polled. *)
Theorem watch_unshared_throws q sched s :
  exec sched (PollingExecutor false q) = Some s →
  tasks (pollFunc_ s) = []
  ∧ (ev_loop_submitted ∉ log s)
  ∧ (∀ w tq r, ev_wait w tq r ∉ log s)
  ∧ ∀ w accept, active_ s = true → isPollerRunning_ s = false →
      ∃ s1 s2,
        step (call (watch w)) s = Some s1
        ∧ step (spawn (length (frames s)) accept) s1 = Some s2
        ∧ frames s1 = frames s ++ [watch_spawn]
        ∧ waitables_ s1 = waitables_ s ++ [w]
        ∧ isPollerRunning_ s1 = true
        ∧ frames s2 = frames s ++ [raised bad_weak_ptr]
        ∧ waitables_ s2 = waitables_ s ++ [w]
        ∧ isPollerRunning_ s2 = true
        ∧ pollFunc_ s2 = pollFunc_ s
        ∧ log s2 = ev_enqueued w :: log s.
Proof.
  intros He. destruct (reach_unshared_never_polls _ _ _ _ He) as [Hu Hsh].
  destruct (Hu Hsh) as (Hp & _ & Hl & Hw). split_and!; try done.
  intros w accept Hact Hrun.
  exists (watch_locked w s), (watch_spawn_loop (length (frames s)) accept (watch_locked w s)).
  destruct s as [ssh tq ws act run [pts pstop] [jobs dstop] fs lg]; cbn in *.
  subst. unfold watch_locked, watch_spawn_loop. cbn.
  rewrite lookup_snoc_last, insert_snoc_last. by split_and!.
Qed.

Lemma watch_unshared_throws_witness :
  ∃ s2, exec [call (watch 0); spawn 0 true] (PollingExecutor false 10) = Some s2
        ∧ waitables_ s2 = [0] ∧ tasks (pollFunc_ s2) = []
        ∧ frames s2 = [raised bad_weak_ptr].
Proof.
  destruct (watch_unshared_throws 10 [] (PollingExecutor false 10) eq_refl)
    as (_ & _ & _ & H).
  destruct (H 0 true eq_refl eq_refl)
    as (s1 & s2 & H1 & H2 & _ & _ & _ & Hf & Hq & _ & Hp & _).
  exists s2. split_and!; try done.
  - cbn [exec]. rewrite H1. change (length (frames (PollingExecutor false 10))) with 0 in H2.
    by rewrite H2.
  - by rewrite Hp.
Defined.

(** * Further properties *)

Lemma poller_covers_queue_step a s s' :
  single_poller s → shutdown_once s → poller_covers_queue s →
  step a s = Some s' → poller_covers_queue s'.
Proof.
  unfold single_poller, shutdown_once, poller_covers_queue, loops, alive_loops,
    runner_stops, runner_stopped.
  intros [Hle Hz] (Hon1 & _ & _ & _ & Hon5 & _) Hcov Hs. revert Hle Hz Hon1 Hon5 Hcov.
  step_cases Hs; cbn; rewrite ?sum_list_with_app; cbn;
    intros Hle Hz Hon1 Hon5 Hcov Hact; try done;
    destruct (Hcov Hact) as [Hq Hl]; cut_sums; cbn in *.
  all: split; [intros Hf|intros Hsh Hf]; simplify_eq/=; try done;
       try (by apply Hq); try (specialize (Hl eq_refl eq_refl));
       try (specialize (Hz eq_refl)); try lia.
  (* an active executor has not stopped its poll runner *)
  destruct pstop; cbn in *; [lia|done].
Qed.

Lemma reach_poller_covers_queue sh q sched s :
  exec sched (PollingExecutor sh q) = Some s → poller_covers_queue s.
Proof.
  intros He.
  apply (exec_invariant
           (λ s, single_poller s ∧ shutdown_ordered s ∧ poller_covers_queue s))
    in He as (_ & _ & H); [done|..].
  - intros a s0 s1 (Hsp & Hso & Hc) Hs. split_and!.
    + by eapply single_poller_step.
    + by eapply shutdown_ordered_step.
    + destruct Hso as [Hon _]. by eapply poller_covers_queue_step.
  - split_and!.
    + split; [cbn; lia|done].
    + apply shutdown_ordered_init.
    + intros _. split; [done|]. intros _ Hf. done.
Qed.

(** X1.  No wake-up is lost.  On an executor that a [shared_ptr] manages
    and that is active, a queue that is not empty always has its poll loop:
    [isPollerRunning_] is set and exactly one loop is alive or in the hands
    of the call of [watch] that is about to submit it. *)
Theorem queued_waitable_has_loop q sched s :
  exec sched (PollingExecutor true q) = Some s →
  active_ s = true → waitables_ s ≠ [] →
  isPollerRunning_ s = true ∧ loops s = 1.
Proof.
  intros He Hact Hne.
  destruct (reach_poller_covers_queue _ _ _ _ He Hact) as [Hq Hl].
  destruct (reach_unshared_never_polls _ _ _ _ He) as [_ Hsh].
  destruct (isPollerRunning_ s) eqn:Hf; [|by destruct Hne; apply Hq].
  split; [done|]. by apply Hl.
Qed.

Lemma queued_waitable_has_loop_witness :
  isPollerRunning_ first_poll_state = true ∧ loops first_poll_state = 1.
Proof.
  apply (queued_waitable_has_loop 10 first_poll first_poll_state eq_refl eq_refl).
  done.
Defined.


(** X2.  Stopping is final.  From an inactive executor no schedule leads
    back to an active one, and no call of [watch] puts anything into the
    queue any more: the waitables it has accepted stay the same. *)
Theorem inactive_forever sched s s' :
  exec sched s = Some s' → active_ s = false →
  active_ s' = false ∧ ∀ w, accepted w s' = accepted w s.
Proof.
  revert s. induction sched as [|a l IH]; intros s He Hact; simplify_eq/=; [done|].
  destruct (step a s) as [s1|] eqn:Hs; [|done].
  destruct (IH _ He) as [Hact' Hacc].
  { by destruct (inactive_step _ _ _ 0 Hact Hs). }
  split; [done|]. intros w. rewrite Hacc.
  by destruct (inactive_step _ _ _ w Hact Hs).
Qed.

Lemma inactive_forever_witness :
  ∃ s', exec [call (watch 7); call (watch 8); call stop] stopped_state = Some s'
        ∧ active_ s' = false ∧ accepted 7 s' = 0.
Proof.
  eexists. split; [reflexivity|].
  destruct (inactive_forever [call (watch 7); call (watch 8); call stop] stopped_state _
              eq_refl eq_refl) as [Hact Hacc].
  split; [exact Hact|]. by rewrite Hacc.
Defined.

(** X3.  The runners are stopped once.  In every execution the executor
    calls the [stop] of each runner at most once, however many threads call
    [stop] and however often; while the executor is active it has called
    neither, and once it is inactive the poll runner is either already told
    to stop or the one call of [stop] that found the executor active is
    about to tell it. *)
Theorem runners_stopped_once sh q sched s :
  exec sched (PollingExecutor sh q) = Some s →
  runner_stops poll_runner s ≤ 1
  ∧ runner_stops dispatch_runner s ≤ runner_stops poll_runner s
  ∧ (active_ s = true →
     runner_stops poll_runner s = 0
     ∧ stop_called (pollFunc_ s) = false ∧ stop_called (dispatchFunc_ s) = false)
  ∧ (active_ s = false →
     sum_list_with before_poll_stop (frames s) + runner_stops poll_runner s = 1)
  ∧ (stop_called (pollFunc_ s) = true ↔ runner_stops poll_runner s = 1)
  ∧ (stop_called (dispatchFunc_ s) = true ↔ runner_stops dispatch_runner s = 1).
Proof.
  intros He.
  destruct (reach_shutdown_ordered _ _ _ _ He) as ((H1 & H2 & H3 & H4 & H5 & H6) & _).
  unfold flag in *.
  destruct (active_ s), (stop_called (pollFunc_ s)), (stop_called (dispatchFunc_ s));
    cbn in *; split_and!; try done; try lia; try (intros; split_and!; (done || lia)).
  all: split; intros; (done || lia).
Qed.

Lemma runners_stopped_once_witness :
  runner_stops poll_runner stranded_state ≤ 1.
Proof.
  apply (runners_stopped_once true 10 stop_during_unready_wait stranded_state eq_refl).
Defined.

Lemma polls_with_step q a s s' : polls_with q s → step a s = Some s' → polls_with q s'.
Proof.
  unfold polls_with. intros [Hq Hl] Hs. revert Hq Hl.
  step_cases Hs; cbn; intros Hq Hl; (split; [done|]); try done.
  all: intros u tq0 r0 Hin;
       repeat match goal with
              | G : _ ∈ _ :: _ |- _ => apply elem_of_cons in G as [G|G]; simplify_eq
              end; eauto.
Qed.

(** X4.  The poll timeout is the one the executor was constructed with:
    [q_] never changes, and every call of [wait] the executor ever makes
    passes it. *)
Theorem every_wait_uses_q sh q sched s :
  exec sched (PollingExecutor sh q) = Some s →
  q_ s = q ∧ ∀ w tq r, ev_wait w tq r ∈ log s → tq = q.
Proof.
  apply (exec_invariant (polls_with q)); [apply polls_with_step|].
  split; [done|]. by intros w tq r Hin%elem_of_nil.
Qed.

Lemma every_wait_uses_q_witness :
  q_ second_poll_state = 10.
Proof.
  apply (every_wait_uses_q true 10
           (first_poll ++ poll_wait 0 (wait_returns false) :: one_round)
           second_poll_state eq_refl).
Defined.

Lemma sum_list_with_le {A} (f g : A → nat) (l : list A) :
  (∀ x, f x ≤ g x) → sum_list_with f l ≤ sum_list_with g l.
Proof.
  intros Hfg. induction l as [|x l IH]; cbn; [lia|]. specialize (Hfg x). lia.
Qed.

Lemma polls_step a s s' :
  active_ s = false → step a s = Some s' →
  sum_list_with polls (log s') + sum_list_with in_hand (tasks (pollFunc_ s'))
  ≤ sum_list_with polls (log s) + sum_list_with in_hand (tasks (pollFunc_ s)).
Proof.
  intros Hact Hs. revert Hact.
  step_cases Hs; cbn; rewrite ?sum_list_with_app; cbn; intros Hact; simplify_eq/=;
    cut_sums; cbn in *; lia.
Qed.

(** X5.  A [stop] ends the polling.  Once the executor is inactive no
    loop pops a waitable again: whatever happens afterwards, the executor
    makes at most one more call of [wait], the one of a loop that had
    already popped its waitable when [stop] ran, and none if no loop was at
    that point. *)
Theorem stop_ends_polling sh q sched s sched' s' :
  exec sched (PollingExecutor sh q) = Some s →
  active_ s = false →
  exec sched' s = Some s' →
  sum_list_with polls (log s') ≤ sum_list_with polls (log s) + 1
  ∧ (sum_list_with in_hand (tasks (pollFunc_ s)) = 0 →
     sum_list_with polls (log s') = sum_list_with polls (log s)).
Proof.
  intros He Hact He'.
  destruct (reach_single_poller _ _ _ _ He) as [Hle _].
  unfold loops, alive_loops in Hle.
  pose proof (sum_list_with_le in_hand alive (tasks (pollFunc_ s))
                ltac:(by intros []; cbn; lia)) as Hh.
  pose proof (counter_mono polls _ _ _ He') as Hmono.
  assert (sum_list_with polls (log s') + sum_list_with in_hand (tasks (pollFunc_ s'))
          ≤ sum_list_with polls (log s) + sum_list_with in_hand (tasks (pollFunc_ s)))
    as Hb; [|split; lia].
  clear He Hle Hh Hmono. revert s Hact He'.
  induction sched' as [|a l IH]; intros s Hact He'; simplify_eq/=; [done|].
  destruct (step a s) as [s1|] eqn:Hs; [|done].
  pose proof (polls_step _ _ _ Hact Hs) as Hp.
  destruct (inactive_step _ _ _ 0 Hact Hs) as [Hact1 _].
  specialize (IH _ Hact1 He'). lia.
Qed.

Lemma stop_ends_polling_witness :
  ∃ s', exec [call (watch 3); call stop; stop_step 3; stop_step 3] stranded_state = Some s'
        ∧ sum_list_with polls (log s') = sum_list_with polls (log stranded_state).
Proof.
  eexists. split; [reflexivity|].
  apply (stop_ends_polling true 10 stop_during_unready_wait stranded_state
           [call (watch 3); call stop; stop_step 3; stop_step 3] _ eq_refl eq_refl eq_refl).
  reflexivity.
Defined.

Lemma polled_while_pending_step w a s s' :
  conserved s → readiness_accounted s → accepted w s ≤ 1 →
  polled_while_pending w (log s) → step a s = Some s' →
  polled_while_pending w (log s').
Proof.
  unfold conserved, readiness_accounted, held, completions, accepted, ready_waits.
  intros Hc Hr Hone Hp Hs. specialize (Hc w). destruct (Hr w) as [Hr1 _]. clear Hr.
  revert Hc Hr1 Hone Hp.
  step_cases Hs; cbn; intros Hc Hr1 Hone Hp; try done.
  all: repeat match goal with |- _ ∧ _ => split end; try done; intros Hhit; try lia.
  all: match goal with
       | G : _ !! _ = Some (holding _) |- _ =>
           pose proof (sum_list_with_lookup (unready w) _ _ _ G) as Hu;
           pose proof (sum_list_with_lookup (poll_holds w) _ _ _ G) as Hh
       end; cbn in Hu, Hh; lia.
Qed.

Lemma reach_polled_while_pending sh q w sched s :
  exec sched (PollingExecutor sh q) = Some s → NoDup (watched sched) →
  polled_while_pending w (log s).
Proof.
  revert sched s. apply (reach_ind _ (λ sched s, NoDup (watched sched) → _)); [done|].
  intros sched a s s' He IH Hs Hnd.
  assert (NoDup (watched sched)) as Hnd0.
  { rewrite watched_app in Hnd. by apply NoDup_app in Hnd as [? _]. }
  eapply polled_while_pending_step; [..|apply IH, Hnd0|exact Hs].
  - by eapply reach_conserved.
  - by eapply reach_readiness_accounted.
  - by eapply accepted_once.
Qed.

Lemma polled_while_pending_suffix w l1 l2 :
  polled_while_pending w (l1 ++ l2) → polled_while_pending w l2.
Proof. induction l1 as [|e l1 IH]; [done|]. intros [_ H]. by apply IH. Qed.

(** X6.  The executor is done with a waitable once its polling has ended.
    With distinct waitables passed to [watch]: the executor only polls
    waitables it has accepted; after a [wait] on a waitable has returned
    [true] or thrown, and after its [dispatch] has been invoked, the
    executor never calls [wait] on it again; so at most one [wait] per
    waitable ends its polling. *)
Theorem never_polled_again sh q sched s w :
  exec sched (PollingExecutor sh q) = Some s → NoDup (watched sched) →
  (∀ tq r, ev_wait w tq r ∈ log s → 1 ≤ accepted w s)
  ∧ ready_waits w s ≤ 1
  ∧ ∀ l1 e l2, log s = l1 ++ e :: l2 →
      1 ≤ ready_wait w e + completes w e →
      sum_list_with (checks w) l1 = 0.
Proof.
  intros He Hnd.
  pose proof (reach_polled_while_pending _ _ w _ _ He Hnd) as Hp.
  pose proof (accepted_once _ _ _ _ w He Hnd) as Hone.
  destruct (reach_readiness_accounted _ _ _ _ He w) as [Hr _].
  split_and!.
  - intros tq r Hin. apply list_elem_of_split in Hin as (l1 & l2 & Hlog).
    rewrite Hlog in Hp. apply polled_while_pending_suffix in Hp as [Hp _].
    cbn in Hp. rewrite hit_same in Hp. destruct (Hp ltac:(lia)) as [_ Hacc].
    unfold accepted. rewrite Hlog, sum_list_with_app. cbn. lia.
  - lia.
  - intros l1 e l2 Hlog He1. rewrite Hlog in Hp. clear -Hp He1.
    induction l1 as [|x l1 IH]; [done|]. cbn in *. destruct Hp as [Hx Hp].
    rewrite (IH Hp).
    destruct (decide (1 ≤ checks w x)) as [Hc|Hc]; [|lia].
    destruct (Hx Hc) as [Hz _]. rewrite !sum_list_with_app in Hz. cbn in Hz. lia.
Qed.

Lemma never_polled_again_witness :
  ready_waits 0 stopped_during_wait ≤ 1.
Proof.
  assert (NoDup (watched stop_during_wait)) as Hnd by distinct.
  exact (proj1 (proj2 (never_polled_again true 10 stop_during_wait stopped_during_wait 0
                         eq_refl Hnd))).
Defined.

Lemma no_loop_nothing_to_dispatch (pts : list poll_pc) :
  sum_list_with alive pts = 0 → flat_map about_to_dispatch pts = [].
Proof.
  induction pts as [|x pts IH]; cbn; [done|]. intros Hz.
  rewrite IH by lia. destruct x; cbn in *; (done || lia).
Qed.

Lemma one_loop_to_dispatch (pts : list poll_pc) p pc pc' :
  sum_list_with alive pts ≤ 1 → pts !! p = Some pc → is_finished pc = false →
  flat_map about_to_dispatch (<[p:=pc']> pts) = about_to_dispatch pc'.
Proof.
  revert p. induction pts as [|x pts IH]; intros [|p] Hle Hp Hfin; simplify_eq/=.
  - assert (alive pc = 1) as Hpc by (unfold alive; by rewrite Hfin).
    rewrite no_loop_nothing_to_dispatch by lia. by rewrite app_nil_r.
  - pose proof (sum_list_with_lookup alive _ _ _ Hp) as Hsum.
    assert (alive pc = 1) as Hpc by (unfold alive; by rewrite Hfin).
    rewrite (IH p) by (done || lia).
    destruct x; cbn in *; (done || lia).
Qed.

Lemma readiness_order_kept_step a s s' :
  single_poller s → loops_idle_after_stop s → readiness_order_kept s →
  step a s = Some s' → readiness_order_kept s'.
Proof.
  unfold single_poller, loops, alive_loops, loops_idle_after_stop, readiness_order_kept.
  intros [Hle _] Hidle (Ho & Hlen & Hjob) Hs. revert Hle Hidle Ho Hlen Hjob.
  step_cases Hs; cbn; intros Hle Hidle Ho Hlen Hjob; try done.
  all: assert (sum_list_with alive pts ≤ 1) as Hone by lia.
  all: try (match goal with
            | G : _ !! _ = Some ?pc |- _ =>
                lazymatch pc with
                | at_top => idtac | holding _ => idtac | waited _ _ _ => idtac
                end;
                let E := fresh "E" in
                pose proof (λ pc', one_loop_to_dispatch pts _ _ pc' Hone G eq_refl) as E;
                pose proof (E pc) as Hold;
                rewrite list_insert_id in Hold by exact G;
                cbn in Hold; rewrite ?E; rewrite Hold in *
            end).
  all: rewrite ?flat_map_app, ?length_app, ?length_insert; cbn.
  all: rewrite ?app_nil_r in *.
  all: split_and!; try done; try congruence.
  { destruct ready; cbn; rewrite Ho; by rewrite ?app_nil_r. }
  { destruct dstop; [|done]. by specialize (Hidle eq_refl _ _ H). }
  { intros d x [(_ & Hd)|(-> & Hd)]%lookup_snoc_Some.
    - rewrite lookup_app_l; [by apply Hjob|]. by eapply lookup_lt_Some, Hjob.
    - rewrite Hlen, lookup_app_r, Nat.sub_diag by lia. by simplify_eq. }
  { intros d x Hd. apply Hjob.
    destruct (decide (d = ld)) as [->|Hne].
    - apply list_lookup_insert_Some in Hd as [(_ & ? & _)|(? & _)]; done.
    - by rewrite list_lookup_insert_ne in Hd. }
  all: match goal with |- ?g => idtac end.
Qed.

Lemma reach_readiness_order_kept sh q sched s :
  exec sched (PollingExecutor sh q) = Some s → readiness_order_kept s.
Proof.
  revert sched s. apply (reach_ind _ (λ _ s, readiness_order_kept s)).
  { by split_and!. }
  intros sched a s s' He IH Hs.
  eapply readiness_order_kept_step; [..|exact IH|exact Hs].
  - by eapply reach_single_poller.
  - by eapply reach_shutdown_ordered.
Qed.

Lemma about_to_dispatch_alive pts :
  length (flat_map about_to_dispatch pts) ≤ sum_list_with alive pts.
Proof.
  induction pts as [|pc pts IH]; [done|]. cbn. rewrite length_app.
  assert (length (about_to_dispatch pc) ≤ alive pc); [|lia].
  destruct pc as [| |? [] ?|]; cbn; lia.
Qed.

(** X7.  Dispatch follows readiness.  Jobs reach the dispatch runner in
    the order in which the [wait]s came back ready or threw: the [d]-th
    job submitted is for the waitable of the [d]-th such [wait] and carries
    its exception pointer, and at every moment at most one such [wait] has
    not been handed over yet. *)
Theorem dispatched_in_readiness_order sh q sched s :
  exec sched (PollingExecutor sh q) = Some s →
  handoff_order (log s) `prefix_of` ready_order (log s)
  ∧ length (tasks (dispatchFunc_ s)) = length (handoff_order (log s))
  ∧ length (ready_order (log s)) ≤ length (tasks (dispatchFunc_ s)) + 1
  ∧ ∀ d x, tasks (dispatchFunc_ s) !! d = Some (Some x) →
      ready_order (log s) !! d = Some x.
Proof.
  intros He. destruct (reach_readiness_order_kept _ _ _ _ He) as (Ho & Hlen & Hjob).
  destruct (reach_single_poller _ _ _ _ He) as [Hle _].
  pose proof (about_to_dispatch_alive (tasks (pollFunc_ s))) as Hlast.
  unfold loops, alive_loops in Hle.
  split_and!.
  - rewrite Ho. by eexists.
  - done.
  - rewrite Ho, length_app, Hlen. lia.
  - intros d x Hd. rewrite Ho. apply lookup_app_l_Some. by apply Hjob.
Qed.

Lemma dispatched_in_readiness_order_witness :
  ready_order (log ready_out_of_turn_state) !! 1 = Some (0, Some (other_exception 7)).
Proof.
  by apply (dispatched_in_readiness_order true 10 ready_out_of_turn
              ready_out_of_turn_state eq_refl).
Defined.

Lemma may_requeue_alive pts :
  sum_list_with may_requeue pts ≤ sum_list_with alive pts.
Proof.
  induction pts as [|pc pts IH]; [done|]. cbn.
  assert (may_requeue pc ≤ alive pc); [|lia].
  destruct pc as [| |? [] ?|]; cbn; lia.
Qed.

Lemma one_stranded_step a s s' :
  single_poller s → one_stranded s → step a s = Some s' → one_stranded s'.
Proof.
  unfold single_poller, one_stranded, loops, alive_loops.
  intros [Hle _] Hone Hs.
  pose proof (may_requeue_alive (tasks (pollFunc_ s))) as Hma.
  revert Hle Hone Hma.
  step_cases Hs; cbn; rewrite ?sum_list_with_app, ?length_app; cbn;
    intros Hle Hone Hma Hact; simplify_eq/=; try specialize (Hone eq_refl);
    cut_sums; cbn in *; try lia.
  destruct ready; lia.
Qed.

Lemma polled_unready_cons w e l : polled_unready w l → polled_unready w (e :: l).
Proof. intros [q Hin]. exists q. by right. Qed.

Lemma stranded_polled_step a s s' :
  stranded_polled s → step a s = Some s' → stranded_polled s'.
Proof.
  unfold stranded_polled. intros [Hp Hq] Hs. revert Hp Hq.
  step_cases Hs; cbn; intros Hp Hq;
    (split; [intros p0 u err Hl|intros Hact u Hin]).
  all: lookups.
  all: repeat match goal with
              | G : _ ∈ _ ++ [_] |- _ =>
                  apply elem_of_app in G as [G|G%list_elem_of_singleton]; simplify_eq
              | G : _ ∈ [] |- _ => by apply elem_of_nil in G
              end.
  all: repeat match goal with
              | G : _ !! _ = Some (waited _ false _) |- _ => apply Hp in G
              end.
  all: try done.
  all: try (by (eexists; left)).
  all: repeat apply polled_unready_cons; try done.
  all: try (by apply Hq).
Qed.

(** X8.  At most one waitable is left behind.  The queue of an inactive
    executor never holds more than one waitable, and that one was put back
    by a poll loop after a [wait] that reported [false]; while it sits
    there no loop is left that could push another. *)
Theorem at_most_one_stranded sh q sched s :
  exec sched (PollingExecutor sh q) = Some s →
  active_ s = false →
  length (waitables_ s) ≤ 1
  ∧ (∀ w, w ∈ waitables_ s → polled_unready w (log s))
  ∧ (waitables_ s ≠ [] →
     ∀ p pc, tasks (pollFunc_ s) !! p = Some pc → may_requeue pc = 0).
Proof.
  intros He Hact.
  apply (exec_invariant
           (λ s, single_poller s ∧ one_stranded s ∧ stranded_polled s))
    in He as (_ & Hone & _ & Hq).
  - specialize (Hone Hact). split_and!; [lia|by apply Hq|].
    intros Hne p pc Hp.
    pose proof (sum_list_with_lookup may_requeue _ _ _ Hp).
    destruct (waitables_ s); [done|]. cbn in Hone. lia.
  - intros a s0 s1 (Hsp & Ho & Hst) Hs. split_and!.
    + by eapply single_poller_step.
    + by eapply one_stranded_step.
    + by eapply stranded_polled_step.
  - split_and!.
    + split; [cbn; lia|done].
    + done.
    + split; [done|]. intros _ w Hin. by apply elem_of_nil in Hin.
Qed.

Lemma at_most_one_stranded_witness :
  waitables_ stranded_state = [0] ∧ polled_unready 0 (log stranded_state).
Proof.
  split; [reflexivity|].
  apply (at_most_one_stranded true 10 stop_during_unready_wait stranded_state
           eq_refl eq_refl).
  by left.
Defined.
